(** * standardize_data.py: the galaxy-table clean-up, embedded and verified

    The module reads a csv into a pandas DataFrame and runs three passes
    over it: [standardize_region_names], [fix_mult_core] and
    [standardize_CNames]; [fix_data] composes them and makes [CName] the
    index of the frame.

    The passes are embedded twice.
    - On typed tables: a frame with the columns [CName] (text), [Region]
      (text) and [R] (number) is a list of rows, and the passes are total
      functions on it.  This is where the transformations are studied.
    - In [Module Frame], on frames as the loader returns them: a column may
      be missing and a text cell may be [NaN], so a step may raise.  This is
      where failures are studied.  On frames that hold a typed table the two
      embeddings agree (section [Refinement]).

    Modelling choices.
    - A Python [str] is a [string]; its characters are code points below
      256, for which the regular expression class [\d] is exactly
      ['0'..'9'].
    - The frame produced by [pd.read_csv] carries the default
      [RangeIndex], so the label used by [data.loc[index, col]] is the
      position of the row: a table is a [list] of rows, read with [!!] and
      written with [alter].
    - The numeric column [R] holds rationals.  The passes only carry it
      around.
    - Columns other than [CName], [Region] and [R] are never read nor
      written by the passes and are left out. *)

From Stdlib Require Import QArith Ascii.
From stdpp Require Import base list strings.

(** ** Python string primitives used by the module *)

(** [sub in s]: [sub] occurs in [s] as a contiguous substring. *)
Fixpoint contains (sub s : string) : bool :=
  String.prefix sub s ||
  match s with
  | EmptyString => false
  | String _ s' => contains sub s'
  end.

(** The class [\d] on code points below 256. *)
Definition is_digit (c : ascii) : bool :=
  match c with
  | "0" | "1" | "2" | "3" | "4" | "5" | "6" | "7" | "8" | "9" => true
  | _ => false
  end%char.

(** [re.match(r"c\d", s)]: [re.match] tries the pattern at position 0
    only, so the text has to begin with a [c] and a digit. *)
Definition re_match_c_digit (s : string) : bool :=
  match s with
  | String "c"%char (String d _) => is_digit d
  | _ => false
  end.

(** [s[-3:]]: the last three characters, the whole text when it is
    shorter. *)
Definition last3 (s : string) : string :=
  String.substring (String.length s - 3) 3 s.

(** [s[:-3]]: everything but the last three characters, the empty text
    when [s] is shorter. *)
Definition drop_last3 (s : string) : string :=
  String.substring 0 (String.length s - 3) s.

(** [chr(ord('A') + index)]; ['A'] is code point 65.  The result is a
    character of [ascii] for [index] below 191, that is for galaxies of up
    to 191 core rows. *)
Definition chr_A_plus (index : nat) : ascii := ascii_of_nat (65 + index).

(** ** Rows and tables *)

Record Row := mkRow { CName : string; Region : string; R : Q }.

Abbreviation Table := (list Row).

Definition set_Region (v : string) (r : Row) : Row :=
  mkRow (CName r) v (R r).

Definition set_CName (v : string) (r : Row) : Row :=
  mkRow v (Region r) (R r).

(** [data.loc[label, "Region"]] and [data.loc[label, "CName"]], as a read
    and as an assignment.  Every label the passes use is the position of a
    row of the frame. *)
Definition loc_Region (label : nat) (data : Table) : option string :=
  Region <$> data !! label.

Definition loc_CName (label : nat) (data : Table) : option string :=
  CName <$> data !! label.

Definition loc_set_Region (label : nat) (v : string) (data : Table) : Table :=
  alter (set_Region v) label data.

Definition loc_set_CName (label : nat) (v : string) (data : Table) : Table :=
  alter (set_CName v) label data.

(** ** standardize_region_names *)

(** The [if]/[elif] chain of the loop body, on the text read from
    [data.loc[index, "Region"]]; it yields the text that the taken branch
    stores. *)
Definition region_branch (raw : string) : string :=
  if contains "co" raw then "core"
  else if contains "ce" raw then "center"
  else if contains "outsk" raw || contains "ot" raw then "outsk"
  else if contains "ic" raw then "icl"
  else if re_match_c_digit raw then "core"
  else if contains "ou" raw then "outer"
  else "other".

(** One iteration of [for index in range(0, max)].  [index] ranges over
    the rows of [data], so the read always finds a row. *)
Definition region_iter (data : Table) (index : nat) : Table :=
  match loc_Region index data with
  | Some raw => loc_set_Region index (region_branch raw) data
  | None => data
  end.

Definition standardize_region_names (data : Table) : Table :=
  let max := length data in
  foldl region_iter data (seq 0 max).

(** ** standardize_CNames *)

(** One iteration of [for index in range(0, max)]: when the last three
    characters of the [CName] at [index] are [reg], the [CName] is stored
    again without them. *)
Definition cname_iter (data : Table) (index : nat) : Table :=
  match loc_CName index data with
  | Some name =>
      if String.eqb (last3 name) "reg"
      then loc_set_CName index (drop_last3 name) data
      else data
  | None => data
  end.

Definition standardize_CNames (data : Table) : Table :=
  let max := length data in
  foldl cname_iter data (seq 0 max).

(** ** fix_mult_core *)

(** [Series.unique()]: the distinct values in order of first appearance. *)
Fixpoint unique {A} `{EqDecision A} (l : list A) : list A :=
  match l with
  | [] => []
  | x :: l' => x :: filter (λ y, y ≠ x) (unique l')
  end.

(** A frame cut out of [new_df] by a boolean mask keeps the index labels of
    the rows it selects: a list of labelled rows. *)
Abbreviation Selection := (list (nat * Row)).

(** [new_df[(new_df["CName"] == name) & (new_df["Region"] == "core")]] *)
Definition select_core (name : string) (new_df : Table) : Selection :=
  filter (λ ir, CName ir.2 = name ∧ Region ir.2 = "core") (imap pair new_df).

(** [sort_values(by = "R")]: a NEW frame with the rows in ascending order
    of [R]; rows with equal [R] stay in their order. *)
Fixpoint insert_by_R (x : nat * Row) (l : Selection) : Selection :=
  match l with
  | [] => [x]
  | y :: l' =>
      if Qle_bool (R x.2) (R y.2) then x :: y :: l' else y :: insert_by_R x l'
  end.

Definition sort_values (df : Selection) : Selection :=
  foldr insert_by_R [] df.

(** ["core" + chr(ord('A') + index)] *)
Definition core_letter (index : nat) : string :=
  "core" +:+ String (chr_A_plus index) "".

(** The inner loop [for index in range(0, temp_df.shape[0])].  After
    [reset_index] the rows of [temp_df] are numbered from 0 and the column
    ["index"] holds the label each row had in [new_df]. *)
Definition relabel_iter (temp_df : Selection) (new_df : Table) (index : nat)
  : Table :=
  match temp_df !! index with
  | Some (label, _) => loc_set_Region label (core_letter index) new_df
  | None => new_df
  end.

(** The body of [for name in galaxy_names].  The call
    [temp_df.sort_values(by = "R")] is an expression statement: the sorted
    frame it returns is dropped and [temp_df] keeps the order of the rows in
    [new_df].  The message printed for more than 26 cores goes to standard
    output and does not touch the frame. *)
Definition core_iter (new_df : Table) (name : string) : Table :=
  let temp_df := select_core name new_df in
  if decide (1 < length temp_df) then
    let dropped := sort_values temp_df in
    foldl (relabel_iter temp_df) new_df (seq 0 (length temp_df))
  else new_df.

Definition fix_mult_core (data : Table) : Table :=
  let new_df := data in
  let galaxy_names := unique (CName <$> new_df) in
  foldl core_iter new_df galaxy_names.

(** ** fix_data *)

(** [set_index('CName')]: [CName] stops being a column and labels the rows;
    the other columns stay.  Labels may repeat. *)
Record Entry := mkEntry { eRegion : string; eR : Q }.

Abbreviation Indexed := (list (string * Entry)).

Definition set_index_CName (df : Table) : Indexed :=
  (λ r, (CName r, mkEntry (Region r) (R r))) <$> df.

(** [df.loc[key]] on the re-keyed frame: the rows labelled [key], in
    order. *)
Definition loc (key : string) (df : Indexed) : list Entry :=
  (filter (λ e, e.1 = key) df).*2.

(** [fix_data] from the frame that [pd.read_csv(csv)] returned. *)
Definition fix_data (std_data : Table) : Indexed :=
  let std_data := standardize_region_names std_data in
  let std_data := fix_mult_core std_data in
  let std_data := standardize_CNames std_data in
  set_index_CName std_data.

(** ** The multi-core pass as documented

    The comments of [fix_mult_core] and the specification both say that the
    selected rows are sorted by [R] and lettered in that order.
    [core_iter_sorted] is [core_iter] with the inner loop running over the
    sorted selection; [disambiguate_cores] is the pass built on it. *)
Definition core_iter_sorted (new_df : Table) (name : string) : Table :=
  let temp_df := select_core name new_df in
  if decide (1 < length temp_df) then
    let temp_df := sort_values temp_df in
    foldl (relabel_iter temp_df) new_df (seq 0 (length temp_df))
  else new_df.

Definition disambiguate_cores (data : Table) : Table :=
  foldl core_iter_sorted data (unique (CName <$> data)).

(** ** fix_mult_core with what it prints *)

(** The text handed to [print]: three adjacent literals, joined as they
    stand, so there is no blank between "less" and "than". *)
Definition warning : string :=
  String "010"
    "This program was only meant to handle data with lessthan 26 cores. Your data has a galaxy that has more than 26 cores. Naming may be strange.".

(** The body of [for name in galaxy_names] on the frame and the texts
    printed so far.  The [print] comes after the inner loop, inside the
    branch taken for more than one core row. *)
Definition core_iter_out (st : Table * list string) (name : string)
  : Table * list string :=
  let new_df := st.1 in
  let temp_df := select_core name new_df in
  if decide (1 < length temp_df) then
    let dropped := sort_values temp_df in
    let new_df' :=
      foldl (relabel_iter temp_df) new_df (seq 0 (length temp_df)) in
    if decide (26 < length temp_df)
    then (new_df', st.2 ++ [warning])
    else (new_df', st.2)
  else st.

Definition fix_mult_core_out (data : Table) : Table * list string :=
  let new_df := data in
  let galaxy_names := unique (CName <$> new_df) in
  foldl core_iter_out (new_df, []) galaxy_names.

(** The rows of a selection stand in ascending order of [R]. *)
Fixpoint ascending_R (l : Selection) : bool :=
  match l with
  | [] => true
  | x :: l' =>
      match l' with
      | [] => true
      | y :: _ => Qle_bool (R x.2) (R y.2) && ascending_R l'
      end
  end.

(** ** The pipeline on whatever frame the loader returns

    [pd.read_csv] gives back a frame with the columns the file happens to
    have.  Here a frame may lack any of the three columns, and a cell of
    the text columns [CName] and [Region] is a [str] or the [NaN] that the
    loader puts for an empty field.  A failing step raises, and nothing in
    the module catches. *)
Module Frame.

Inductive key := Column (name : string) | Label (index : nat).

Inductive exn :=
| LoadError (msg : string)
| KeyError (k : key)
| AttributeError (attr : string)
| TypeError.

Inductive result (A : Type) : Type :=
| Ok (a : A)
| Raise (e : exn).
Arguments Ok {A} a.
Arguments Raise {A} e.

#[global] Instance result_ret : MRet result := λ A a, Ok a.
#[global] Instance result_bind : MBind result := λ A B f m,
  match m with
  | Ok a => f a
  | Raise e => Raise e
  end.

(** A text cell: [Some s] is the [str] [s], [None] is [NaN]. *)
Abbreviation cell := (option string).

Record frame := mkFrame {
  shape0 : nat;
  col_CName : option (list cell);
  col_Region : option (list cell);
  col_R : option (list Q) }.

(** [data[name]]: the column, [KeyError] when the frame has none. *)
Definition column {A} (col : option (list A)) (name : string)
  : result (list A) :=
  match col with
  | Some cells => Ok cells
  | None => Raise (KeyError (Column name))
  end.

(** [data.loc[index, name]] as a read. *)
Definition loc_get (col : option (list cell)) (name : string) (index : nat)
  : result cell :=
  cells ← column col name;
  match cells !! index with
  | Some c => Ok c
  | None => Raise (KeyError (Label index))
  end.

(** [data.loc[label, "Region"] = v] and [data.loc[label, "CName"] = v].
    The passes assign to a column only after reading it, so the column is
    there. *)
Definition loc_set_Region (label : nat) (v : string) (data : frame) : frame :=
  mkFrame (shape0 data) (col_CName data)
          (<[label := Some v]> <$> col_Region data) (col_R data).

Definition loc_set_CName (label : nat) (v : string) (data : frame) : frame :=
  mkFrame (shape0 data) (<[label := Some v]> <$> col_CName data)
          (col_Region data) (col_R data).

(** A [for] loop whose body may raise: the first failure ends it. *)
Fixpoint for_each {A B} (body : A → B → result A) (a : A) (l : list B)
  : result A :=
  match l with
  | [] => Ok a
  | x :: l' => a' ← body a x; for_each body a' l'
  end.

(** ["co" in data.loc[index, "Region"]] raises [TypeError] on [NaN]. *)
Definition region_iter (data : frame) (index : nat) : result frame :=
  c ← loc_get (col_Region data) "Region" index;
  match c with
  | Some raw => Ok (loc_set_Region index (region_branch raw) data)
  | None => Raise TypeError
  end.

Definition standardize_region_names (data : frame) : result frame :=
  let max := shape0 data in
  for_each region_iter data (seq 0 max).

(** [x == y] on cells: [NaN] equals nothing. *)
Definition cell_eqb (x y : cell) : bool :=
  match x, y with
  | Some s, Some s' => String.eqb s s'
  | _, _ => false
  end.

(** The labels of the rows picked by the mask
    [(new_df["CName"] == name) & (new_df["Region"] == "core")]: the column
    ["index"] of [temp_df] after [reset_index]. *)
Definition select_core (name : cell) (cnames regions : list cell) : list nat :=
  (filter (λ ic, cell_eqb ic.2.1 name && cell_eqb ic.2.2 (Some "core") = true)
          (imap pair (zip cnames regions))).*1.

Definition relabel_iter (temp_df : list nat) (new_df : frame) (index : nat)
  : frame :=
  match temp_df !! index with
  | Some label => loc_set_Region label (core_letter index) new_df
  | None => new_df
  end.

(** [sort_values(by = "R")] raises [KeyError] when there is no [R]; the
    frame it returns is dropped. *)
Definition core_iter (new_df : frame) (name : cell) : result frame :=
  cnames ← column (col_CName new_df) "CName";
  regions ← column (col_Region new_df) "Region";
  let temp_df := select_core name cnames regions in
  if decide (1 < length temp_df) then
    dropped ← column (col_R new_df) "R";
    Ok (foldl (relabel_iter temp_df) new_df (seq 0 (length temp_df)))
  else Ok new_df.

(** [new_df.CName] is an attribute access: [AttributeError] when the frame
    has no such column. *)
Definition fix_mult_core (data : frame) : result frame :=
  let new_df := data in
  cnames ← match col_CName new_df with
           | Some cells => Ok cells
           | None => Raise (AttributeError "CName")
           end;
  let galaxy_names := unique cnames in
  for_each core_iter new_df galaxy_names.

(** [data.loc[index, "CName"][-3:]] raises [TypeError] on [NaN]. *)
Definition cname_iter (data : frame) (index : nat) : result frame :=
  c ← loc_get (col_CName data) "CName" index;
  match c with
  | Some name =>
      if String.eqb (last3 name) "reg"
      then Ok (loc_set_CName index (drop_last3 name) data)
      else Ok data
  | None => Raise TypeError
  end.

Definition standardize_CNames (data : frame) : result frame :=
  let max := shape0 data in
  for_each cname_iter data (seq 0 max).

(** The frame after [set_index('CName')]. *)
Record indexed := mkIndexed {
  index : list cell;
  icol_Region : option (list cell);
  icol_R : option (list Q) }.

Definition set_index_CName (data : frame) : result indexed :=
  cnames ← column (col_CName data) "CName";
  Ok (mkIndexed cnames (col_Region data) (col_R data)).

Section Pipeline.
Context {source : Type}.
(** The loader, from outside the module. *)
Variable read_csv : source → result frame.

Definition fix_data (csv : source) : result indexed :=
  std_data ← read_csv csv;
  std_data ← standardize_region_names std_data;
  std_data ← fix_mult_core std_data;
  std_data ← standardize_CNames std_data;
  set_index_CName std_data.
End Pipeline.

(** The frame that holds the rows of a typed table, with or without the
    column [R]. *)
Definition of_table (has_R : bool) (t : Table) : frame :=
  mkFrame (length t)
          (Some ((λ r, Some (CName r)) <$> t))
          (Some ((λ r, Some (Region r)) <$> t))
          (if has_R then Some (R <$> t) else None).

Definition of_indexed (has_R : bool) (ix : Indexed) : indexed :=
  mkIndexed ((λ e, Some e.1) <$> ix)
            (Some ((λ e, Some (eRegion e.2)) <$> ix))
            (if has_R then Some ((λ e, eR e.2) <$> ix) else None).

End Frame.

(** ** The region rules as the specification words them *)

(** The ordered rule set: a test on the raw text and the label it gives.
    Rule 5, the letter [c] immediately followed by a digit, is looked for
    at the start of the text. *)
Definition rules : list ((string → bool) * string) :=
  [ (contains "co", "core");
    (contains "ce", "center");
    (λ raw, contains "outsk" raw || contains "ot" raw, "outsk");
    (contains "ic", "icl");
    (re_match_c_digit, "core");
    (contains "ou", "outer") ].

(** First match wins; the catch-all is ["other"]. *)
Fixpoint first_match (rs : list ((string → bool) * string)) (raw : string)
  : string :=
  match rs with
  | [] => "other"
  | (test, label) :: rs' => if test raw then label else first_match rs' raw
  end.

Definition canonicalize_regions (table : Table) : Table :=
  (λ r, set_Region (first_match rules (Region r)) r) <$> table.

Definition canonical_labels : list string :=
  ["core"; "center"; "outer"; "outsk"; "icl"; "other"].

(** The text begins with the letter [c] and a digit. *)
Definition begins_c_digit (raw : string) : Prop :=
  ∃ d rest, raw = String "c" (String d rest) ∧ is_digit d = true.

(** One of rules 1 to 4 fires. *)
Definition earlier_rule (raw : string) : bool :=
  contains "co" raw || contains "ce" raw
  || (contains "outsk" raw || contains "ot" raw) || contains "ic" raw.

Definition ends_with (suffix s : string) : Prop := ∃ p, s = p +:+ suffix.

(** ** Row-level descriptions used by the proofs *)

(** What the identifier pass leaves of one [CName]. *)
Definition strip_reg (name : string) : string :=
  if String.eqb (last3 name) "reg" then drop_last3 name else name.

(** What the region pass and the identifier pass leave of one row. *)
Definition relabel_region (r : Row) : Row :=
  set_Region (region_branch (Region r)) r.

Definition relabel_cname (r : Row) : Row :=
  set_CName (strip_reg (CName r)) r.

(** The rows that [select_core] keeps. *)
Definition core_of (name : string) (r : Row) : Prop :=
  CName r = name ∧ Region r = "core".

(** [select_core] on a table whose first row carries label [k]. *)
Definition select_from (k : nat) (name : string) (t : Table) : Selection :=
  filter (λ ir, core_of name ir.2) (imap (λ i r, (k + i, r)) t).

(** The number of core rows of the galaxy above row [j]. *)
Definition rank (name : string) (t : Table) (j : nat) : nat :=
  length (select_core name (take j t)).

(** Two rows of the same galaxy that are one row when the galaxy is
    [name]. *)
Definition agree_on (name : string) (r r' : Row) : Prop :=
  CName r' = CName r ∧ (CName r = name → r' = r).

(** What [core_iter] leaves in row [j]. *)
Definition core_row (name : string) (t : Table) (j : nat) (r : Row) : Row :=
  if decide (core_of name r ∧ 1 < length (select_core name t))
  then set_Region (core_letter (rank name t j)) r
  else r.

(** What [fix_mult_core] leaves in row [j] of table [t]. *)
Definition lettered_row (t : Table) (j : nat) (r : Row) : Row :=
  core_row (CName r) t j r.

(** The rows after the galaxies [names] have been handled. *)
Definition rows_after (names : list string) (t : Table) (j : nat) (r : Row)
  : Row :=
  if decide (CName r ∈ names) then lettered_row t j r else r.

(** A galaxy of [names] with two or more core rows in [t]. *)
Definition multi_core (names : list string) (t : Table) : Prop :=
  Exists (λ name, 1 < length (select_core name t)) names.

(** Some galaxy of the table has two or more core rows. *)
Definition has_multi_core (t : Table) : Prop :=
  multi_core (unique (CName <$> t)) t.

(** * Facts about the string primitives *)

Section Strings.
Implicit Types s t sub : string.

Lemma append_nil_l t : "" +:+ t = t.
Proof. reflexivity. Qed.

Lemma append_cons c s t : String c s +:+ t = String c (s +:+ t).
Proof. reflexivity. Qed.

Lemma append_assoc s t u : (s +:+ t) +:+ u = s +:+ (t +:+ u).
Proof.
  induction s as [|c s IH]; [done|]. by rewrite !append_cons, IH.
Qed.

Lemma length_append s t :
  String.length (s +:+ t) = String.length s + String.length t.
Proof.
  induction s as [|c s IH]; [done|]. rewrite append_cons. simpl. by rewrite IH.
Qed.

Lemma substring_all s : String.substring 0 (String.length s) s = s.
Proof. induction s as [|c s IH]; simpl; [done | by rewrite IH]. Qed.

Lemma substring_skip s t n :
  String.substring (String.length s) n (s +:+ t) = String.substring 0 n t.
Proof. induction s as [|c s IH]; [done|]. by rewrite append_cons. Qed.

Lemma substring_head s t :
  String.substring 0 (String.length s) (s +:+ t) = s.
Proof.
  induction s as [|c s IH]; [by destruct t|].
  rewrite append_cons. simpl. by rewrite IH.
Qed.

(** A text is its first [n] characters followed by the rest. *)
Lemma substring_split s n :
  n ≤ String.length s →
  s = String.substring 0 n s +:+ String.substring n (String.length s - n) s.
Proof.
  revert n. induction s as [|c s IH]; intros [|n] Hn; simpl in *;
    try done; try lia.
  - by rewrite append_nil_l, substring_all.
  - rewrite append_cons. f_equal. apply IH. lia.
Qed.

(** [String.prefix] is the prefix test. *)
Lemma prefix_spec sub s :
  String.prefix sub s = true ↔ ∃ q, s = sub +:+ q.
Proof.
  revert s. induction sub as [|c sub IH]; intros s.
  - split; [intros _; by exists s | by destruct s].
  - destruct s as [|d s]; simpl.
    + split; [done | intros [q Hq]; discriminate].
    + destruct (ascii_dec c d) as [->|Hne].
      * rewrite IH.
        split; intros [q Hq]; exists q; rewrite append_cons in *; congruence.
      * split; [done | intros [q Hq]; rewrite append_cons in Hq; congruence].
Qed.

(** [contains] is Python's [in]: the text is [p + sub + q] for some [p]
    and [q]. *)
Lemma contains_spec sub s :
  contains sub s = true ↔ ∃ p q, s = p +:+ sub +:+ q.
Proof.
  induction s as [|c s IH].
  - cbn [contains]. rewrite orb_false_r, prefix_spec. split.
    + intros [q Hq]. by exists "", q.
    + intros [[|d p] [q Hq]]; [by exists q | done].
  - cbn [contains]. rewrite orb_true_iff, IH, prefix_spec. split.
    + intros [[q Hq]|[p [q Hq]]].
      * by exists "", q.
      * exists (String c p), q. by rewrite append_cons, Hq.
    + intros [[|d p] [q Hq]].
      * left. by exists q.
      * right. exists p, q. rewrite append_cons in Hq. congruence.
Qed.

Lemma last3_short s : String.length s < 3 → last3 s ≠ "reg".
Proof.
  intros Hs. unfold last3.
  destruct s as [|a [|b [|c s]]]; simpl in *; try done; lia.
Qed.

Lemma last3_append s t : String.length t = 3 → last3 (s +:+ t) = t.
Proof.
  intros Ht. unfold last3. rewrite length_append, Ht.
  replace (String.length s + 3 - 3) with (String.length s) by lia.
  by rewrite substring_skip, <-Ht, substring_all.
Qed.

Lemma drop_last3_append s t :
  String.length t = 3 → drop_last3 (s +:+ t) = s.
Proof.
  intros Ht. unfold drop_last3. rewrite length_append, Ht.
  replace (String.length s + 3 - 3) with (String.length s) by lia.
  apply substring_head.
Qed.

(** A text whose last three characters are [reg] is the rest followed by
    [reg]. *)
Lemma last3_reg_split s : last3 s = "reg" → s = drop_last3 s +:+ "reg".
Proof.
  intros Hs. destruct (decide (String.length s < 3)) as [Hlt|Hge].
  - by apply last3_short in Hlt.
  - unfold last3, drop_last3 in *.
    rewrite (substring_split s (String.length s - 3)) at 1 by lia.
    replace (String.length s - (String.length s - 3)) with 3 by lia.
    by rewrite Hs.
Qed.

Lemma strip_reg_suffix s : strip_reg (s +:+ "reg") = s.
Proof.
  unfold strip_reg. rewrite last3_append by done. simpl.
  by apply drop_last3_append.
Qed.

Lemma strip_reg_other s : (∀ p, s ≠ p +:+ "reg") → strip_reg s = s.
Proof.
  intros Hs. unfold strip_reg.
  destruct (String.eqb_spec (last3 s) "reg") as [Heq|Hne]; [|done].
  by apply last3_reg_split, Hs in Heq.
Qed.

Lemma strip_reg_short s : String.length s < 3 → strip_reg s = s.
Proof.
  intros Hs. unfold strip_reg.
  destruct (String.eqb_spec (last3 s) "reg") as [Heq|Hne]; [|done].
  by apply last3_short in Hs.
Qed.

(** One suffix is removed, not all of them: what is left ends with [reg]
    exactly when the text ended with [regreg]. *)
Lemma strip_reg_ends_reg s p :
  strip_reg s = p +:+ "reg" → s = p +:+ "regreg".
Proof.
  unfold strip_reg.
  destruct (String.eqb_spec (last3 s) "reg") as [Heq|Hne]; intros Hp.
  - apply last3_reg_split in Heq. rewrite Heq, Hp.
    by rewrite append_assoc.
  - subst s. by rewrite last3_append in Hne.
Qed.
End Strings.

(** * The two row-by-row passes are maps *)

Section RowLoops.
Implicit Types data pre : Table.

(** A loop over all the positions of a table that rewrites each row from
    its own content does what [fmap] does. *)
Lemma foldl_alter_seq (g : Row → Row) pre data :
  foldl (λ d i, alter g i d) (pre ++ data) (seq (length pre) (length data))
  = pre ++ (g <$> data).
Proof.
  revert pre. induction data as [|r data IH]; intros pre; [done|].
  cbn [length seq foldl fmap list_fmap].
  replace (length pre) with (length pre + 0) at 1 by lia.
  rewrite alter_app_r. cbn [alter list_alter].
  rewrite (cons_middle (g r)), app_assoc.
  replace (S (length pre)) with (length (pre ++ [g r]))
    by (rewrite length_app; simpl; lia).
  rewrite IH. by rewrite <-app_assoc.
Qed.

Lemma foldl_ext_loop {A} (f g : A → nat → A) a l :
  (∀ x i, f x i = g x i) → foldl f a l = foldl g a l.
Proof.
  intros Hfg. revert a. induction l as [|i l IH]; intros a; [done|].
  simpl. by rewrite Hfg, IH.
Qed.

Lemma region_iter_alter data index :
  region_iter data index = alter relabel_region index data.
Proof.
  unfold region_iter, loc_Region, loc_set_Region.
  destruct (data !! index) as [row|] eqn:Hrow; simpl.
  - apply list_alter_ext; [|done]. intros x Hx. by simplify_eq.
  - apply list_eq. intros j. rewrite list_lookup_alter.
    case_decide; [subst; by rewrite Hrow | done].
Qed.

Lemma cname_iter_alter data index :
  cname_iter data index = alter relabel_cname index data.
Proof.
  unfold cname_iter, loc_CName, loc_set_CName.
  destruct (data !! index) as [row|] eqn:Hrow; simpl.
  - destruct (String.eqb (last3 (CName row)) "reg") eqn:Hreg.
    + apply list_alter_ext; [|done]. intros x Hx. simplify_eq.
      unfold relabel_cname, strip_reg. by rewrite Hreg.
    + apply list_eq. intros j. rewrite list_lookup_alter.
      case_decide; [subst|done]. rewrite Hrow. simpl.
      unfold relabel_cname, strip_reg. rewrite Hreg. by destruct row.
  - apply list_eq. intros j. rewrite list_lookup_alter.
    case_decide; [subst; by rewrite Hrow | done].
Qed.

Lemma standardize_region_names_fmap data :
  standardize_region_names data = relabel_region <$> data.
Proof.
  unfold standardize_region_names.
  rewrite (foldl_ext_loop _ _ _ _ region_iter_alter).
  apply (foldl_alter_seq relabel_region []).
Qed.

Lemma standardize_CNames_fmap data :
  standardize_CNames data = relabel_cname <$> data.
Proof.
  unfold standardize_CNames.
  rewrite (foldl_ext_loop _ _ _ _ cname_iter_alter).
  apply (foldl_alter_seq relabel_cname []).
Qed.
End RowLoops.

(** * The multi-core pass, row by row *)

Section Unique.
Context {A : Type} `{EqDecision A}.
Implicit Types l : list A.

Lemma elem_of_unique l x : x ∈ unique l ↔ x ∈ l.
Proof.
  induction l as [|y l IH]; [done|]. cbn [unique].
  rewrite !elem_of_cons, list_elem_of_filter, IH.
  destruct (decide (x = y)); tauto.
Qed.

Lemma NoDup_unique l : NoDup (unique l).
Proof.
  induction l as [|y l IH]; [constructor|]. cbn [unique].
  apply NoDup_cons. split; [|by apply NoDup_filter].
  rewrite list_elem_of_filter. intros [Hne _]. by apply Hne.
Qed.
End Unique.

Section Selection.
Implicit Types (t : Table) (name : string) (r : Row).

Lemma select_from_cons k name r t :
  select_from k name (r :: t) =
  (if decide (core_of name r) then [(k, r)] else [])
    ++ select_from (S k) name t.
Proof.
  unfold select_from. rewrite imap_cons, filter_cons. cbn [snd].
  replace (k + 0) with k by lia.
  rewrite (imap_ext _ (λ i r, (S k + i, r)))
    by (intros; simpl; f_equal; lia).
  by case_decide.
Qed.

Lemma select_from_app k name t1 t2 :
  select_from k name (t1 ++ t2) =
  select_from k name t1 ++ select_from (k + length t1) name t2.
Proof.
  revert k. induction t1 as [|r t1 IH]; intros k.
  - simpl. by replace (k + 0) with k by lia.
  - rewrite <-app_comm_cons, !select_from_cons, IH, <-app_assoc.
    simpl. by replace (k + S (length t1)) with (S (k + length t1)) by lia.
Qed.

Lemma select_core_app name t1 t2 :
  select_core name (t1 ++ t2) =
  select_core name t1 ++ select_from (length t1) name t2.
Proof. apply (select_from_app 0). Qed.

Lemma elem_of_select_core name t i r :
  (i, r) ∈ select_core name t → t !! i = Some r ∧ core_of name r.
Proof.
  unfold select_core. rewrite list_elem_of_filter. intros [Hc Hin].
  split; [|done]. apply list_elem_of_lookup in Hin as [k Hk].
  rewrite list_lookup_imap in Hk.
  destruct (t !! k) eqn:Hr; simplify_eq/=. done.
Qed.

Lemma fst_imap_pair t : (imap pair t).*1 = seq 0 (length t).
Proof.
  rewrite fmap_imap.
  rewrite (imap_ext _ (λ j _, id j)) by done.
  by rewrite imap_seq_0, list_fmap_id.
Qed.

Lemma NoDup_select_core name t : NoDup (select_core name t).*1.
Proof.
  unfold select_core.
  eapply sublist_NoDup; [apply (NoDup_seq 0 (length t))|].
  rewrite <-fst_imap_pair. apply fmap_sublist, sublist_filter.
Qed.

(** A selected row sits in the selection at the position given by the
    number of selected rows above it. *)
Lemma select_core_rank name t j r :
  t !! j = Some r → core_of name r →
  select_core name t !! rank name t j = Some (j, r).
Proof.
  intros Hj Hc. unfold rank.
  replace (select_core name t)
    with (select_core name (take j t ++ r :: drop (S j) t))
    by (by rewrite take_drop_middle).
  rewrite select_core_app, select_from_cons.
  rewrite decide_True by done.
  rewrite lookup_app_r by lia. rewrite Nat.sub_diag. simpl.
  rewrite length_take_le; [done|]. apply lookup_lt_Some in Hj. lia.
Qed.

Lemma select_from_agree k name t t' :
  Forall2 (agree_on name) t t' →
  select_from k name t' = select_from k name t.
Proof.
  intros H. revert k. induction H as [|r r' t t' [Hn Hr] _ IH]; intros k.
  - done.
  - rewrite !select_from_cons, IH. f_equal.
    destruct (decide (CName r = name)) as [Heq|Hne].
    + by rewrite (Hr Heq).
    + rewrite !decide_False;
        [done | unfold core_of; intros [? _]; congruence..].
Qed.

Lemma select_core_agree name t t' :
  Forall2 (agree_on name) t t' → select_core name t' = select_core name t.
Proof. apply (select_from_agree 0). Qed.
End Selection.

Section MultiCore.
Implicit Types (t new_df : Table) (name : string) (r : Row).
Implicit Types temp_df : Selection.

(** The inner loop leaves alone every row whose label the selection does
    not hold among its first [n] entries. *)
Lemma relabel_loop_miss temp_df new_df n j :
  (∀ k r, k < n → temp_df !! k ≠ Some (j, r)) →
  foldl (relabel_iter temp_df) new_df (seq 0 n) !! j = new_df !! j.
Proof.
  induction n as [|n IH]; intros Hmiss; [done|].
  rewrite seq_S, foldl_snoc. simpl. unfold relabel_iter at 1.
  destruct (temp_df !! n) as [[label r]|] eqn:Hn.
  - unfold loc_set_Region. rewrite list_lookup_alter_ne.
    + apply IH. intros k r' Hk. apply Hmiss. lia.
    + intros ->. apply (Hmiss n r); [lia | done].
  - apply IH. intros k r' Hk. apply Hmiss. lia.
Qed.

(** The row labelled by entry [k] of the selection gets letter [k]. *)
Lemma relabel_loop_hit temp_df new_df n k j r :
  NoDup temp_df.*1 → k < n → temp_df !! k = Some (j, r) →
  foldl (relabel_iter temp_df) new_df (seq 0 n) !! j
  = set_Region (core_letter k) <$> new_df !! j.
Proof.
  intros Hnd Hk Hkj.
  assert (∀ k' r', temp_df !! k' = Some (j, r') → k' = k) as Honly.
  { intros k' r' Hk'. apply (NoDup_lookup _ _ _ j Hnd);
      rewrite list_lookup_fmap; [by rewrite Hk' | by rewrite Hkj]. }
  induction n as [|n IH]; [lia|].
  rewrite seq_S, foldl_snoc. simpl. unfold relabel_iter at 1.
  destruct (decide (k = n)) as [->|Hne].
  - rewrite Hkj. unfold loc_set_Region. rewrite list_lookup_alter_eq.
    rewrite relabel_loop_miss; [done|].
    intros k' r' Hlt Hk'. apply Honly in Hk'. lia.
  - destruct (temp_df !! n) as [[label r']|] eqn:Hn; [|apply IH; lia].
    unfold loc_set_Region. rewrite list_lookup_alter_ne; [apply IH; lia|].
    intros ->. apply Honly in Hn. lia.
Qed.

Lemma core_iter_lookup t name j :
  core_iter t name !! j = core_row name t j <$> t !! j.
Proof.
  unfold core_iter, core_row. cbv zeta.
  destruct (decide (1 < length (select_core name t))) as [Hmany|Hfew].
  - destruct (t !! j) as [r|] eqn:Hj.
    + destruct (decide (core_of name r)) as [Hc|Hc].
      * pose proof (select_core_rank _ _ _ _ Hj Hc) as Hpos.
        rewrite (relabel_loop_hit _ _ _ _ _ _
                   (NoDup_select_core name t)
                   (lookup_lt_Some _ _ _ Hpos) Hpos).
        rewrite Hj. simpl. by rewrite decide_True.
      * rewrite relabel_loop_miss.
        { rewrite Hj. simpl. rewrite decide_False; [done|]. by intros [? _]. }
        intros k r' _ Hk.
        apply list_elem_of_lookup_2, elem_of_select_core in Hk as [Hr Hc'].
        rewrite Hj in Hr. by simplify_eq.
    + rewrite relabel_loop_miss; [by rewrite Hj|].
      intros k r' _ Hk.
      apply list_elem_of_lookup_2, elem_of_select_core in Hk as [Hr _].
      by rewrite Hj in Hr.
  - destruct (t !! j) as [r|]; simpl; [|done].
    rewrite decide_False; [done|]. by intros [_ ?].
Qed.

Lemma core_row_CName name t j r : CName (core_row name t j r) = CName r.
Proof. unfold core_row. by case_decide. Qed.

Lemma core_row_R name t j r : R (core_row name t j r) = R r.
Proof. unfold core_row. by case_decide. Qed.

Lemma core_row_other name t j r : CName r ≠ name → core_row name t j r = r.
Proof.
  intros Hne. unfold core_row. rewrite decide_False; [done|].
  by intros [[? _] _].
Qed.

Lemma core_row_agree name t t' j r :
  Forall2 (agree_on name) t t' → core_row name t' j r = core_row name t j r.
Proof.
  intros H. unfold core_row, rank.
  rewrite (select_core_agree name t t' H).
  by rewrite (select_core_agree name (take j t) (take j t')
                (Forall2_take _ _ _ _ H)).
Qed.

Lemma rows_after_CName names t j r : CName (rows_after names t j r) = CName r.
Proof.
  unfold rows_after, lettered_row. case_decide; [|done].
  apply core_row_CName.
Qed.

Lemma foldl_core_iter_lookup names t j :
  NoDup names →
  foldl core_iter t names !! j = rows_after names t j <$> t !! j.
Proof.
  revert j. induction names as [|name names IH] using rev_ind;
    intros j Hnd.
  - simpl. unfold rows_after. by destruct (t !! j).
  - apply NoDup_app in Hnd as (Hnd & Hfresh & _).
    assert (name ∉ names) as Hname.
    { intros Hin. apply (Hfresh _ Hin). apply list_elem_of_here. }
    assert (Forall2 (agree_on name) t (foldl core_iter t names)) as Hag.
    { apply Forall2_lookup. intros i. rewrite (IH i Hnd).
      destruct (t !! i) as [r|]; constructor.
      split; [apply rows_after_CName|].
      intros Hr. unfold rows_after. rewrite decide_False; congruence. }
    rewrite foldl_snoc, core_iter_lookup, (IH j Hnd).
    destruct (t !! j) as [r|]; simpl; [|done]. f_equal.
    rewrite (core_row_agree _ _ _ _ _ Hag).
    destruct (decide (CName r = name)) as [Hr|Hr].
    + unfold rows_after. rewrite decide_False by congruence.
      rewrite decide_True by (rewrite elem_of_app, Hr;
                              right; apply list_elem_of_here).
      unfold lettered_row. by rewrite Hr.
    + rewrite core_row_other by (by rewrite rows_after_CName).
      unfold rows_after.
      destruct (decide (CName r ∈ names)) as [Hin|Hin].
      * rewrite decide_True; [done|]. apply elem_of_app. by left.
      * rewrite decide_False; [done|].
        rewrite elem_of_app, list_elem_of_singleton. tauto.
Qed.

(** Row [j] of the result is row [j] of the argument; if it is a core
    row of a galaxy with two or more core rows, its [Region] holds the
    letter counted from the core rows of that galaxy above it. *)
Lemma fix_mult_core_lookup t j :
  fix_mult_core t !! j = lettered_row t j <$> t !! j.
Proof.
  unfold fix_mult_core. cbv zeta.
  rewrite foldl_core_iter_lookup by apply NoDup_unique.
  destruct (t !! j) as [r|] eqn:Hj; simpl; [|done]. f_equal.
  unfold rows_after. rewrite decide_True; [done|].
  apply elem_of_unique, list_elem_of_fmap. exists r. split; [done|].
  by apply list_elem_of_lookup_2 in Hj.
Qed.

Lemma fix_mult_core_imap t : fix_mult_core t = imap (lettered_row t) t.
Proof.
  apply list_eq. intros j.
  by rewrite fix_mult_core_lookup, list_lookup_imap.
Qed.
End MultiCore.

(** * The typed passes are the frame passes on frames of text *)

Section Refinement.
Implicit Types (t : Table) (b : bool).

Lemma filter_fmap_inj {A B} (f : A → B) `{!Inj (=) (=) f}
    `{EqDecision A, EqDecision B} (x : A) (l : list A) :
  filter (λ y, y ≠ f x) (f <$> l) = f <$> filter (λ y, y ≠ x) l.
Proof.
  induction l as [|a l IH]; [done|].
  rewrite fmap_cons, !filter_cons, IH.
  destruct (decide (a = x)) as [->|Hne].
  - rewrite !decide_False; [done | by intros ? | by intros ?].
  - rewrite !decide_True; [done | done |]. intros Heq. by apply (inj f) in Heq.
Qed.

Lemma unique_fmap_inj {A B} (f : A → B) `{!Inj (=) (=) f}
    `{EqDecision A, EqDecision B} (l : list A) :
  unique (f <$> l) = f <$> unique l.
Proof.
  induction l as [|a l IH]; [done|].
  rewrite fmap_cons. cbn [unique]. rewrite IH, fmap_cons.
  by rewrite (filter_fmap_inj f).
Qed.

Lemma length_region_iter t i : length (region_iter t i) = length t.
Proof. by rewrite region_iter_alter, length_alter. Qed.

Lemma length_cname_iter t i : length (cname_iter t i) = length t.
Proof. by rewrite cname_iter_alter, length_alter. Qed.

Lemma loc_set_Region_of_table b t label v :
  Frame.loc_set_Region label v (Frame.of_table b t)
  = Frame.of_table b (loc_set_Region label v t).
Proof.
  unfold Frame.loc_set_Region, Frame.of_table, loc_set_Region. simpl.
  rewrite length_alter. f_equal.
  - f_equal. rewrite (list_fmap_alter _ _ id) by by apply Forall_true.
    by rewrite list_alter_id.
  - f_equal. rewrite list_insert_alter.
    symmetry. apply list_fmap_alter. by apply Forall_true.
  - destruct b; [|done]. f_equal.
    rewrite (list_fmap_alter _ _ id) by by apply Forall_true.
    by rewrite list_alter_id.
Qed.

Lemma loc_set_CName_of_table b t label v :
  Frame.loc_set_CName label v (Frame.of_table b t)
  = Frame.of_table b (loc_set_CName label v t).
Proof.
  unfold Frame.loc_set_CName, Frame.of_table, loc_set_CName. simpl.
  rewrite length_alter. f_equal.
  - f_equal. rewrite list_insert_alter.
    symmetry. apply list_fmap_alter. by apply Forall_true.
  - f_equal. rewrite (list_fmap_alter _ _ id) by by apply Forall_true.
    by rewrite list_alter_id.
  - destruct b; [|done]. f_equal.
    rewrite (list_fmap_alter _ _ id) by by apply Forall_true.
    by rewrite list_alter_id.
Qed.

Lemma region_iter_of_table b t i :
  i < length t →
  Frame.region_iter (Frame.of_table b t) i
  = Frame.Ok (Frame.of_table b (region_iter t i)).
Proof.
  intros Hi. apply lookup_lt_is_Some in Hi as [r Hr].
  unfold Frame.region_iter, Frame.loc_get, region_iter, loc_Region. simpl.
  rewrite list_lookup_fmap, Hr. simpl.
  by rewrite loc_set_Region_of_table.
Qed.

Lemma cname_iter_of_table b t i :
  i < length t →
  Frame.cname_iter (Frame.of_table b t) i
  = Frame.Ok (Frame.of_table b (cname_iter t i)).
Proof.
  intros Hi. apply lookup_lt_is_Some in Hi as [r Hr].
  unfold Frame.cname_iter, Frame.loc_get, cname_iter, loc_CName. simpl.
  rewrite list_lookup_fmap, Hr. simpl.
  destruct (String.eqb (last3 (CName r)) "reg"); [|done].
  by rewrite loc_set_CName_of_table.
Qed.

(** A loop whose body never fails on frames of text and keeps the number of
    rows runs to its end. *)
Lemma for_each_of_table b (body : Frame.frame → nat → Frame.result Frame.frame)
    (step : Table → nat → Table) :
  (∀ t i, i < length t →
     body (Frame.of_table b t) i = Frame.Ok (Frame.of_table b (step t i))) →
  (∀ t i, length (step t i) = length t) →
  ∀ l t, Forall (λ i, i < length t) l →
    Frame.for_each body (Frame.of_table b t) l
    = Frame.Ok (Frame.of_table b (foldl step t l)).
Proof.
  intros Hbody Hlen l. induction l as [|i l IH]; intros t Hl; [done|].
  apply Forall_cons in Hl as [Hi Hl]. simpl.
  rewrite Hbody by done. simpl. apply IH.
  eapply Forall_impl; [exact Hl|]. intros j Hj. by rewrite Hlen.
Qed.

Lemma seq_below n : Forall (λ i, i < n) (seq 0 n).
Proof. apply Forall_seq. intros j Hj. lia. Qed.

Lemma standardize_region_names_of_table b t :
  Frame.standardize_region_names (Frame.of_table b t)
  = Frame.Ok (Frame.of_table b (standardize_region_names t)).
Proof.
  unfold Frame.standardize_region_names, standardize_region_names.
  cbv zeta. simpl Frame.shape0.
  apply (for_each_of_table b _ region_iter);
    auto using region_iter_of_table, length_region_iter, seq_below.
Qed.

Lemma standardize_CNames_of_table b t :
  Frame.standardize_CNames (Frame.of_table b t)
  = Frame.Ok (Frame.of_table b (standardize_CNames t)).
Proof.
  unfold Frame.standardize_CNames, standardize_CNames.
  cbv zeta. simpl Frame.shape0.
  apply (for_each_of_table b _ cname_iter);
    auto using cname_iter_of_table, length_cname_iter, seq_below.
Qed.

Lemma select_core_of_table_from (k : nat) name t :
  (filter (λ ic : nat * (Frame.cell * Frame.cell),
             Frame.cell_eqb ic.2.1 (Some name)
             && Frame.cell_eqb ic.2.2 (Some "core") = true)
          (imap (λ i x, (k + i, x))
                (zip ((λ r, Some (CName r)) <$> t)
                     ((λ r, Some (Region r)) <$> t)))).*1
  = (select_from k name t).*1.
Proof.
  revert k. induction t as [|r t IH]; intros k; [done|].
  rewrite select_from_cons, fmap_app, <-(IH (S k)).
  rewrite !fmap_cons. cbn [zip zip_with]. rewrite imap_cons, filter_cons.
  rewrite (imap_ext _ (λ i x, (S k + i, x)))
    by (intros; simpl; f_equal; lia).
  replace (k + 0) with k by lia. cbn [fst snd Frame.cell_eqb].
  destruct (decide (core_of name r)) as [[Hn Hr]|Hno].
  - rewrite decide_True; [done|].
    apply andb_true_iff. by rewrite !String.eqb_eq.
  - rewrite decide_False; [done|].
    rewrite andb_true_iff, !String.eqb_eq. exact Hno.
Qed.

Lemma select_core_of_table name t :
  Frame.select_core (Some name)
    ((λ r, Some (CName r)) <$> t) ((λ r, Some (Region r)) <$> t)
  = (select_core name t).*1.
Proof. apply (select_core_of_table_from 0). Qed.

Lemma relabel_iter_of_table b (temp_df : Selection) t i :
  Frame.relabel_iter temp_df.*1 (Frame.of_table b t) i
  = Frame.of_table b (relabel_iter temp_df t i).
Proof.
  unfold Frame.relabel_iter, relabel_iter. rewrite list_lookup_fmap.
  destruct (temp_df !! i) as [[label r]|]; [|done]. simpl.
  apply loc_set_Region_of_table.
Qed.

Lemma relabel_loop_of_table b (temp_df : Selection) l t :
  foldl (Frame.relabel_iter temp_df.*1) (Frame.of_table b t) l
  = Frame.of_table b (foldl (relabel_iter temp_df) t l).
Proof.
  revert t. induction l as [|i l IH]; intros t; [done|].
  simpl. by rewrite relabel_iter_of_table, IH.
Qed.

(** On a frame of text the body of the galaxy loop can only fail for want
    of the column [R], and only when the galaxy has two or more core
    rows. *)
Lemma core_iter_of_table b t name :
  Frame.core_iter (Frame.of_table b t) (Some name)
  = if decide (1 < length (select_core name t))
    then if b then Frame.Ok (Frame.of_table b (core_iter t name))
         else Frame.Raise (Frame.KeyError (Frame.Column "R"))
    else Frame.Ok (Frame.of_table b (core_iter t name)).
Proof.
  unfold Frame.core_iter, core_iter. cbv zeta. simpl.
  rewrite select_core_of_table, length_fmap.
  destruct (decide (1 < length (select_core name t))); [|done].
  destruct b; simpl; [|done]. by rewrite relabel_loop_of_table.
Qed.

Lemma core_iter_few t name :
  ¬ 1 < length (select_core name t) → core_iter t name = t.
Proof. intros H. unfold core_iter. cbv zeta. by rewrite decide_False. Qed.

Lemma galaxy_loop_of_table names t :
  Frame.for_each Frame.core_iter (Frame.of_table true t) (Some <$> names)
  = Frame.Ok (Frame.of_table true (foldl core_iter t names)).
Proof.
  revert t. induction names as [|name names IH]; intros t; [done|].
  rewrite fmap_cons. cbn [Frame.for_each foldl].
  rewrite core_iter_of_table.
  destruct (decide (1 < length (select_core name t))); simpl; apply IH.
Qed.

Lemma galaxy_loop_without_R names t :
  Frame.for_each Frame.core_iter (Frame.of_table false t) (Some <$> names)
  = if decide (multi_core names t)
    then Frame.Raise (Frame.KeyError (Frame.Column "R"))
    else Frame.Ok (Frame.of_table false (foldl core_iter t names)).
Proof.
  unfold multi_core.
  induction names as [|name names IH]; [done|].
  rewrite fmap_cons. cbn [Frame.for_each foldl].
  rewrite core_iter_of_table.
  destruct (decide (1 < length (select_core name t))) as [Hmany|Hfew].
  - simpl. rewrite decide_True; [done|]. by apply Exists_cons_hd.
  - simpl. rewrite (core_iter_few _ _ Hfew), IH.
    destruct (decide (Exists _ names)) as [Hex|Hex].
    + rewrite decide_True; [done|]. by apply Exists_cons_tl.
    + rewrite decide_False; [done|]. intros Hex'.
      apply Exists_cons in Hex' as [?|?]; tauto.
Qed.

Lemma unique_cnames_of_table t :
  unique ((λ r, Some (CName r)) <$> t) = Some <$> unique (CName <$> t).
Proof.
  rewrite <-(unique_fmap_inj Some), <-list_fmap_compose. done.
Qed.

Lemma fix_mult_core_of_table t :
  Frame.fix_mult_core (Frame.of_table true t)
  = Frame.Ok (Frame.of_table true (fix_mult_core t)).
Proof.
  unfold Frame.fix_mult_core, fix_mult_core. cbv zeta. simpl.
  rewrite unique_cnames_of_table. apply galaxy_loop_of_table.
Qed.

Lemma fix_mult_core_without_R t :
  Frame.fix_mult_core (Frame.of_table false t)
  = if decide (multi_core (unique (CName <$> t)) t)
    then Frame.Raise (Frame.KeyError (Frame.Column "R"))
    else Frame.Ok (Frame.of_table false (fix_mult_core t)).
Proof.
  unfold Frame.fix_mult_core, fix_mult_core. cbv zeta. simpl.
  rewrite unique_cnames_of_table. apply galaxy_loop_without_R.
Qed.

Lemma set_index_of_table b t :
  Frame.set_index_CName (Frame.of_table b t)
  = Frame.Ok (Frame.of_indexed b (set_index_CName t)).
Proof.
  unfold Frame.set_index_CName, Frame.of_indexed, set_index_CName. simpl.
  rewrite <-!list_fmap_compose. by destruct b.
Qed.

(** The region pass leaves the column [CName] as it is, also when the frame
    has none. *)
Lemma region_iter_col_CName data data' i :
  Frame.region_iter data i = Frame.Ok data' →
  Frame.col_CName data' = Frame.col_CName data.
Proof.
  unfold Frame.region_iter.
  destruct (Frame.loc_get (Frame.col_Region data) "Region" i)
    as [[raw|]|e]; simpl; try done.
  by intros [= <-].
Qed.

Lemma region_iter_no_Region data i :
  Frame.col_Region data = None →
  Frame.region_iter data i = Frame.Raise (Frame.KeyError (Frame.Column "Region")).
Proof. unfold Frame.region_iter. by intros ->. Qed.

Lemma region_loop_col_CName l data data' :
  Frame.for_each Frame.region_iter data l = Frame.Ok data' →
  Frame.col_CName data' = Frame.col_CName data.
Proof.
  revert data. induction l as [|i l IH]; intros data; simpl.
  - by intros [= <-].
  - destruct (Frame.region_iter data i) as [d|e] eqn:Hd; simpl; [|done].
    intros H. by rewrite (IH _ H), (region_iter_col_CName _ _ _ Hd).
Qed.
End Refinement.

(** * The claims *)

Section Claims.
Implicit Types (data : Table) (row : Row).

Lemma region_branch_first_match raw :
  region_branch raw = first_match rules raw.
Proof.
  unfold region_branch, rules, first_match.
  repeat (match goal with |- context [if ?b then _ else _] =>
            destruct b; [reflexivity|] end).
  reflexivity.
Qed.

Lemma region_branch_canonical raw : region_branch raw ∈ canonical_labels.
Proof.
  unfold region_branch, canonical_labels.
  repeat (match goal with |- context [if ?b then _ else _] =>
            destruct b end);
    repeat (first [apply list_elem_of_here | apply list_elem_of_further]).
Qed.

Lemma re_match_c_digit_spec raw :
  re_match_c_digit raw = true ↔ begins_c_digit raw.
Proof.
  unfold begins_c_digit. split.
  - destruct raw as [|c [|d rest]]; simpl; try done.
    + by repeat case_match.
    + intros H. destruct (decide (c = "c"%char)) as [->|Hc].
      * by exists d, rest.
      * exfalso. revert H. repeat case_match; done || congruence.
  - by intros (d & rest & -> & Hd).
Qed.

Lemma region_lookup data i :
  standardize_region_names data !! i = relabel_region <$> data !! i.
Proof. by rewrite standardize_region_names_fmap, list_lookup_fmap. Qed.

Lemma cname_lookup data i :
  standardize_CNames data !! i = relabel_cname <$> data !! i.
Proof. by rewrite standardize_CNames_fmap, list_lookup_fmap. Qed.

(** C2.  The region pass rewrites the [Region] of every row, and nothing
    else, by the ordered first-match-wins rule set applied to the text the
    row held: the loop of the source equals [canonicalize_regions].  Every
    [Region] of the result is one of the six canonical labels.  The test
    [contains] of the rules holds exactly of the texts [p + sub + q].
    "outskirts", "c3", "center-ish", "ounknown", "xyz" become "outsk",
    "core", "center", "outer", "other". *)
Theorem C2_region_rules data :
  standardize_region_names data = canonicalize_regions data
  ∧ Forall (λ r, Region r ∈ canonical_labels) (standardize_region_names data)
  ∧ (∀ sub raw, contains sub raw = true ↔ ∃ p q, raw = p +:+ sub +:+ q)
  ∧ ∀ (name : string) (q : Q),
      standardize_region_names
        [mkRow name "outskirts" q; mkRow name "c3" q;
         mkRow name "center-ish" q; mkRow name "ounknown" q;
         mkRow name "xyz" q]
      = [mkRow name "outsk" q; mkRow name "core" q; mkRow name "center" q;
         mkRow name "outer" q; mkRow name "other" q].
Proof.
  split; [|split; [|split]].
  - rewrite standardize_region_names_fmap. unfold canonicalize_regions.
    apply list_fmap_ext. intros _ r _. unfold relabel_region.
    by rewrite region_branch_first_match.
  - rewrite standardize_region_names_fmap, Forall_fmap.
    apply Forall_forall. intros r _. apply region_branch_canonical.
  - apply contains_spec.
  - intros name q. by rewrite standardize_region_names_fmap.
Qed.

(** C9.  For a row on whose text none of the rules 1 to 4 fires, the
    result is "core" exactly when the text BEGINS with [c] and a digit; a
    [c]-digit pair further inside the text does not count, and the row
    falls through to "outer" (text contains "ou") or "other". *)
Theorem C9_c_digit_anchored data i row :
  data !! i = Some row →
  earlier_rule (Region row) = false →
  ∃ row', standardize_region_names data !! i = Some row'
    ∧ (Region row' = "core" ↔ begins_c_digit (Region row))
    ∧ (¬ begins_c_digit (Region row) →
       Region row' = if contains "ou" (Region row) then "outer" else "other").
Proof.
  intros Hrow Hearly. exists (relabel_region row).
  split; [by rewrite region_lookup, Hrow|].
  unfold earlier_rule in Hearly.
  apply orb_false_elim in Hearly as [Hearly Hic].
  apply orb_false_elim in Hearly as [Hearly Hout].
  apply orb_false_elim in Hearly as [Hco Hce].
  unfold relabel_region. cbn [Region set_Region].
  rewrite <-re_match_c_digit_spec. unfold region_branch.
  rewrite Hco, Hce, Hout, Hic.
  destruct (re_match_c_digit (Region row)).
  - split; [done|]. intros H. by destruct H.
  - split; [|done]. by destruct (contains "ou" (Region row)).
Qed.

Lemma C9_c_digit_anchored_witness :
  ∃ row', standardize_region_names [mkRow "G" "xc3" 1] !! 0 = Some row'
    ∧ (Region row' = "core" ↔ begins_c_digit "xc3")
    ∧ (¬ begins_c_digit "xc3" → Region row' = "other").
Proof.
  apply (C9_c_digit_anchored [mkRow "G" "xc3" 1] 0 (mkRow "G" "xc3" 1));
    reflexivity.
Defined.

(** C4, as the code has it.  A row whose [Region] is "core", "center",
    "outer", "outsk" or "icl" comes out of the region pass unchanged; a
    row whose [Region] is "other" comes out with "outsk", because "other"
    contains "ot". *)
Theorem C4_fixed_points data i row :
  data !! i = Some row →
  (Region row ∈ ["core"; "center"; "outer"; "outsk"; "icl"] →
   standardize_region_names data !! i = Some row)
  ∧ (Region row = "other" →
     standardize_region_names data !! i = Some (set_Region "outsk" row)).
Proof.
  intros Hrow. rewrite region_lookup, Hrow. simpl.
  destruct row as [name region q]. unfold relabel_region.
  cbn [Region CName R set_Region]. split.
  - rewrite !elem_of_cons, elem_of_nil.
    intros [->|[->|[->|[->|[->|[]]]]]]; reflexivity.
  - by intros ->.
Qed.

Lemma C4_fixed_points_witness :
  (standardize_region_names [mkRow "G" "icl" 1; mkRow "G" "other" 2] !! 0
   = Some (mkRow "G" "icl" 1))
  ∧ (standardize_region_names [mkRow "G" "icl" 1; mkRow "G" "other" 2] !! 1
     = Some (mkRow "G" "outsk" 2)).
Proof.
  split.
  - apply (C4_fixed_points [mkRow "G" "icl" 1; mkRow "G" "other" 2] 0
             (mkRow "G" "icl" 1)); [reflexivity|].
    cbn [Region]. do 4 apply list_elem_of_further. apply list_elem_of_here.
  - apply (C4_fixed_points [mkRow "G" "icl" 1; mkRow "G" "other" 2] 1
             (mkRow "G" "other" 2)); reflexivity.
Defined.

(** C4 as stated fails: the canonical label "other" is not a fixed point
    of the region pass. *)
Lemma C4_other_is_rewritten :
  standardize_region_names [mkRow "G" "other" 1] !! 0
  ≠ Some (mkRow "G" "other" 1).
Proof. vm_compute. intros H. discriminate H. Qed.

(** C5.  The identifier pass touches [CName] only.  A [CName] that is some
    text followed by "reg" becomes that text: exactly the last three
    characters go.  A [CName] that does not end with "reg", in particular
    one shorter than three characters, stays.  "NGC1234reg" becomes
    "NGC1234", "NGC1234" stays, "reg" becomes the empty text. *)
Theorem C5_strip_reg_suffix data :
  (∀ i row, data !! i = Some row →
     ∃ row', standardize_CNames data !! i = Some row'
       ∧ Region row' = Region row ∧ R row' = R row
       ∧ (∀ p, CName row = p +:+ "reg" → CName row' = p)
       ∧ (¬ ends_with "reg" (CName row) → CName row' = CName row)
       ∧ (String.length (CName row) < 3 → CName row' = CName row))
  ∧ ∀ (region : string) (q : Q),
      standardize_CNames
        [mkRow "NGC1234reg" region q; mkRow "NGC1234" region q;
         mkRow "reg" region q]
      = [mkRow "NGC1234" region q; mkRow "NGC1234" region q;
         mkRow "" region q].
Proof.
  split.
  - intros i row Hrow. exists (relabel_cname row).
    rewrite cname_lookup, Hrow. unfold relabel_cname.
    cbn [CName Region R set_CName]. repeat split.
    + intros p ->. apply strip_reg_suffix.
    + intros Hno. apply strip_reg_other. intros p Hp. apply Hno. by exists p.
    + apply strip_reg_short.
  - intros region q. by rewrite standardize_CNames_fmap.
Qed.

Lemma C5_strip_reg_suffix_witness :
  ∃ row', standardize_CNames [mkRow "Abell85reg" "icl" 3] !! 0 = Some row'
    ∧ CName row' = "Abell85".
Proof.
  destruct (proj1 (C5_strip_reg_suffix [mkRow "Abell85reg" "icl" 3])
              0 (mkRow "Abell85reg" "icl" 3) eq_refl)
    as (row' & Hrow' & _ & _ & Hp & _).
  exists row'. split; [exact Hrow'|]. apply Hp. reflexivity.
Defined.

Lemma ends_with_reg_last3 s : ends_with "reg" s ↔ last3 s = "reg".
Proof.
  split.
  - intros [p ->]. by apply last3_append.
  - intros Hs. exists (drop_last3 s). by apply last3_reg_split.
Qed.

Lemma fix_data_lookup data i :
  fix_data data !! i =
  (λ r, (strip_reg (CName r),
         mkEntry (Region (lettered_row (standardize_region_names data) i
                            (relabel_region r)))
                 (R r))) <$> data !! i.
Proof.
  unfold fix_data, set_index_CName. cbv zeta.
  rewrite list_lookup_fmap, cname_lookup, fix_mult_core_lookup, region_lookup.
  destruct (data !! i) as [r|]; [|done]. simpl. unfold lettered_row.
  by rewrite core_row_CName, core_row_R.
Qed.

(** C6, as the code has it.  The pipeline removes ONE trailing "reg" from
    each [CName]: an identifier [p + "reg"] is keyed under [p], any other
    identifier under itself.  So a key of the result ends with "reg"
    exactly when the identifier it comes from ended with "regreg". *)
Theorem C6_one_suffix_removed data i row :
  data !! i = Some row →
  ∃ key e, fix_data data !! i = Some (key, e)
    ∧ (∀ p, CName row = p +:+ "reg" → key = p)
    ∧ (¬ ends_with "reg" (CName row) → key = CName row)
    ∧ (ends_with "reg" key ↔ ends_with "regreg" (CName row)).
Proof.
  intros Hrow. rewrite fix_data_lookup, Hrow. simpl.
  eexists _, _. split; [done|]. repeat split.
  - intros p ->. apply strip_reg_suffix.
  - intros Hno. apply strip_reg_other. intros p Hp. apply Hno. by exists p.
  - intros [p Hp]. exists p. by apply strip_reg_ends_reg.
  - intros [p Hp]. exists p. rewrite Hp.
    change (p +:+ "regreg") with (p +:+ ("reg" +:+ "reg")).
    rewrite <-append_assoc. apply strip_reg_suffix.
Qed.

Lemma C6_one_suffix_removed_witness :
  ∃ key e, fix_data [mkRow "NGC1234reg" "co" 1] !! 0 = Some (key, e)
    ∧ key = "NGC1234" ∧ ¬ ends_with "reg" key.
Proof.
  destruct (C6_one_suffix_removed [mkRow "NGC1234reg" "co" 1] 0
              (mkRow "NGC1234reg" "co" 1) eq_refl)
    as (key & e & Hkey & Hp & _ & Hends).
  exists key, e. split; [exact Hkey|].
  assert (key = "NGC1234") as -> by (apply Hp; reflexivity).
  split; [reflexivity|].
  intros Hends'. apply ends_with_reg_last3 in Hends'. discriminate Hends'.
Defined.

(** C6 as stated fails: the identifier "Xregreg" is keyed under "Xreg",
    which ends with "reg". *)
Lemma C6_Xregreg_keeps_a_suffix :
  Exists (λ e, ends_with "reg" e.1) (fix_data [mkRow "Xregreg" "co" 1]).
Proof. apply Exists_cons_hd. by exists "X". Qed.

(** C7.  The multi-core pass never changes [CName] or [R]: row by row the
    result carries the [CName] and [R] of the argument.  Every row of a
    galaxy whose selection of "core" rows has 0 or 1 rows comes out as it
    went in (a lone "core" stays "core"), and so does every row whose
    [Region] is not "core". *)
Theorem C7_multi_core_frame data :
  Forall2 (λ r r', CName r' = CName r ∧ R r' = R r) data (fix_mult_core data)
  ∧ (∀ i row, data !! i = Some row →
       length (select_core (CName row) data) ≤ 1 →
       fix_mult_core data !! i = Some row)
  ∧ (∀ i row, data !! i = Some row →
       Region row ≠ "core" →
       fix_mult_core data !! i = Some row).
Proof.
  split; [|split].
  - apply Forall2_same_length_lookup_2.
    + by rewrite fix_mult_core_imap, length_imap.
    + intros i r r' Hr. rewrite fix_mult_core_lookup, Hr. simpl.
      intros [= <-]. unfold lettered_row.
      by rewrite core_row_CName, core_row_R.
  - intros i row Hrow Hfew. rewrite fix_mult_core_lookup, Hrow. simpl.
    unfold lettered_row, core_row. rewrite decide_False; [done|].
    intros [_ ?]. lia.
  - intros i row Hrow Hreg. rewrite fix_mult_core_lookup, Hrow. simpl.
    unfold lettered_row, core_row. rewrite decide_False; [done|].
    by intros [[_ ?] _].
Qed.

Lemma C7_multi_core_frame_witness :
  fix_mult_core
    [mkRow "G" "core" 5; mkRow "H" "core" 1; mkRow "G" "core" 3;
     mkRow "G" "icl" 2] !! 1
  = Some (mkRow "H" "core" 1)
  ∧ fix_mult_core
      [mkRow "G" "core" 5; mkRow "H" "core" 1; mkRow "G" "core" 3;
       mkRow "G" "icl" 2] !! 3
    = Some (mkRow "G" "icl" 2).
Proof.
  pose proof (C7_multi_core_frame
                [mkRow "G" "core" 5; mkRow "H" "core" 1; mkRow "G" "core" 3;
                 mkRow "G" "icl" 2]) as (_ & Hfew & Hother).
  split.
  - apply Hfew; [reflexivity|]. vm_compute. lia.
  - apply Hother; [reflexivity|]. discriminate.
Defined.

(** C10.  Each pass returns as many rows as it got, in the same order:
    row [i] of the result is row [i] of the argument with, at most, a new
    [Region] (first two passes) or a new [CName] (third pass). *)
Theorem C10_rows_kept_in_order data :
  (length (standardize_region_names data) = length data
   ∧ Forall2 (λ r r', r' = set_Region (Region r') r)
       data (standardize_region_names data))
  ∧ (length (fix_mult_core data) = length data
     ∧ Forall2 (λ r r', r' = set_Region (Region r') r)
         data (fix_mult_core data))
  ∧ (length (standardize_CNames data) = length data
     ∧ Forall2 (λ r r', r' = set_CName (CName r') r)
         data (standardize_CNames data)).
Proof.
  assert (length (standardize_region_names data) = length data) as H1
    by (by rewrite standardize_region_names_fmap, length_fmap).
  assert (length (fix_mult_core data) = length data) as H2
    by (by rewrite fix_mult_core_imap, length_imap).
  assert (length (standardize_CNames data) = length data) as H3
    by (by rewrite standardize_CNames_fmap, length_fmap).
  repeat split; try done.
  - apply Forall2_same_length_lookup_2; [done|].
    intros i r r' Hr. rewrite region_lookup, Hr. simpl. by intros [= <-].
  - apply Forall2_same_length_lookup_2; [done|].
    intros i r r' Hr. rewrite fix_mult_core_lookup, Hr. simpl.
    intros [= <-]. unfold lettered_row, core_row.
    case_decide; [done|]. by destruct r.
  - apply Forall2_same_length_lookup_2; [done|].
    intros i r r' Hr. rewrite cname_lookup, Hr. simpl. by intros [= <-].
Qed.

(** C1 fails on the code.  For one galaxy with core rows at radii 5, 1
    and 3, [fix_mult_core] letters the rows in the order they stand in
    the table (5 gets A, 1 gets B, 3 gets C); lettering by ascending
    radius, as documented, gives A to 1, B to 3 and C to 5. *)
Theorem C1_letters_follow_row_order :
  fix_mult_core [mkRow "G" "core" 5; mkRow "G" "core" 1; mkRow "G" "core" 3]
  = [mkRow "G" "coreA" 5; mkRow "G" "coreB" 1; mkRow "G" "coreC" 3]
  ∧ disambiguate_cores
      [mkRow "G" "core" 5; mkRow "G" "core" 1; mkRow "G" "core" 3]
    = [mkRow "G" "coreC" 5; mkRow "G" "coreA" 1; mkRow "G" "coreB" 3].
Proof. split; reflexivity. Qed.

(** C3 fails on the code.  The three-row input comes out keyed under
    "A1", and looking up "A1" returns the three rows, but the regions are
    "coreA", "coreB", "outsk": radius 2 gets A and radius 1 gets B. *)
Theorem C3_end_to_end :
  fix_data [mkRow "A1reg" "co" 2; mkRow "A1reg" "co" 1;
            mkRow "A1reg" "outsk" 5]
  = [("A1", mkEntry "coreA" 2); ("A1", mkEntry "coreB" 1);
     ("A1", mkEntry "outsk" 5)]
  ∧ loc "A1" (fix_data [mkRow "A1reg" "co" 2; mkRow "A1reg" "co" 1;
                        mkRow "A1reg" "outsk" 5])
    = [mkEntry "coreA" 2; mkEntry "coreB" 1; mkEntry "outsk" 5].
Proof. split; reflexivity. Qed.
End Claims.

Section Failures.
Context {source : Type}.
Variable read_csv : source → Frame.result Frame.frame.

(** C8, as the code has it.  [fix_data] catches nothing.  A failure of the
    load reaches the caller as it is.  A loaded frame is not checked for its
    columns; a missing column fails the first step that reads it, and that
    failure reaches the caller too: [KeyError] for [Region] as soon as there
    is a row, [AttributeError] for [CName] once the region pass is through,
    [KeyError] for [R] only when, after the region pass, some galaxy has two
    or more core rows.  A frame of text without [R] and without such a
    galaxy is processed like any other.  On a frame with the three columns,
    text in [CName] and [Region], the result is the transformed table keyed
    by [CName]. *)
Theorem C8_failures_reach_the_caller (csv : source) :
  (∀ e, read_csv csv = Frame.Raise e →
     Frame.fix_data read_csv csv = Frame.Raise e)
  ∧ (∀ data, read_csv csv = Frame.Ok data →
       Frame.col_Region data = None → 0 < Frame.shape0 data →
       Frame.fix_data read_csv csv
       = Frame.Raise (Frame.KeyError (Frame.Column "Region")))
  ∧ (∀ data, read_csv csv = Frame.Ok data →
       Frame.col_CName data = None →
       Frame.fix_data read_csv csv
       = match Frame.standardize_region_names data with
         | Frame.Ok _ => Frame.Raise (Frame.AttributeError "CName")
         | Frame.Raise e => Frame.Raise e
         end)
  ∧ (∀ t, read_csv csv = Frame.Ok (Frame.of_table false t) →
       Frame.fix_data read_csv csv
       = if decide (has_multi_core (standardize_region_names t))
         then Frame.Raise (Frame.KeyError (Frame.Column "R"))
         else Frame.Ok (Frame.of_indexed false (fix_data t)))
  ∧ (∀ t, read_csv csv = Frame.Ok (Frame.of_table true t) →
       Frame.fix_data read_csv csv
       = Frame.Ok (Frame.of_indexed true (fix_data t))).
Proof.
  unfold Frame.fix_data. repeat split.
  - by intros e ->.
  - intros data -> Hnone Hrows. simpl.
    unfold Frame.standardize_region_names. cbv zeta.
    destruct (Frame.shape0 data) as [|n]; [lia|].
    cbn [seq Frame.for_each]. by rewrite (region_iter_no_Region _ _ Hnone).
  - intros data -> Hnone. simpl.
    destruct (Frame.standardize_region_names data) as [d|e] eqn:Hd; [|done].
    simpl. unfold Frame.fix_mult_core. cbv zeta.
    by rewrite (region_loop_col_CName _ _ _ Hd), Hnone.
  - intros t ->. simpl.
    rewrite standardize_region_names_of_table. simpl.
    rewrite fix_mult_core_without_R. unfold has_multi_core.
    destruct (decide (multi_core _ _)); [done|]. simpl.
    rewrite standardize_CNames_of_table. simpl.
    by rewrite set_index_of_table.
  - intros t ->. simpl.
    rewrite standardize_region_names_of_table. simpl.
    rewrite fix_mult_core_of_table. simpl.
    rewrite standardize_CNames_of_table. simpl.
    by rewrite set_index_of_table.
Qed.
End Failures.

Lemma C8_failures_reach_the_caller_witness :
  Frame.fix_data (λ _ : unit, Frame.Raise (Frame.LoadError "no columns")) ()
  = Frame.Raise (Frame.LoadError "no columns")
  ∧ Frame.fix_data
      (λ _ : unit,
         Frame.Ok (Frame.of_table true
                     [mkRow "A1reg" "co" 2; mkRow "A1reg" "core" 1])) ()
    = Frame.Ok (Frame.mkIndexed [Some "A1"; Some "A1"]
                  (Some [Some "coreA"; Some "coreB"]) (Some [2%Q; 1%Q])).
Proof.
  split.
  - destruct (C8_failures_reach_the_caller
                (λ _ : unit, Frame.Raise (Frame.LoadError "no columns")) ())
      as (Hload & _).
    apply Hload. reflexivity.
  - destruct (C8_failures_reach_the_caller
                (λ _ : unit,
                   Frame.Ok (Frame.of_table true
                               [mkRow "A1reg" "co" 2; mkRow "A1reg" "core" 1]))
                ())
      as (_ & _ & _ & _ & Hok).
    apply (Hok [mkRow "A1reg" "co" 2; mkRow "A1reg" "core" 1]). reflexivity.
Defined.

(** C8 as stated fails: a frame without the column [R] is not rejected. *)
Lemma C8_missing_R_is_accepted :
  Frame.col_R (Frame.mkFrame 1 (Some [Some "A1reg"]) (Some [Some "co"]) None)
  = None
  ∧ Frame.fix_data
      (λ _ : unit,
         Frame.Ok (Frame.mkFrame 1 (Some [Some "A1reg"]) (Some [Some "co"])
                     None)) ()
    = Frame.Ok (Frame.mkIndexed [Some "A1"] (Some [Some "core"]) None).
Proof. split; reflexivity. Qed.

(** * Further properties of the passes *)

Section MorePasses.
Implicit Types (t data : Table) (name : string) (r row : Row).

Lemma core_letter_ne_core k : core_letter k ≠ "core".
Proof.
  unfold core_letter. rewrite !append_cons, append_nil_l. discriminate.
Qed.

Lemma rank_lt name t j r :
  t !! j = Some r → core_of name r → rank name t j < length (select_core name t).
Proof.
  intros Hj Hc. eapply lookup_lt_Some. by apply select_core_rank.
Qed.

Lemma rank_take name t i j : i ≤ j → rank name (take j t) i = rank name t i.
Proof. intros Hij. unfold rank. by rewrite take_take, Nat.min_l. Qed.

(** Going down the table, the rank grows at every core row of the
    galaxy. *)
Lemma rank_mono name t i j r :
  i < j → t !! i = Some r → core_of name r → rank name t i < rank name t j.
Proof.
  intros Hij Hi Hc. rewrite <-(rank_take name t i j) by lia.
  unfold rank at 2. apply (rank_lt _ _ _ r); [|done].
  by rewrite lookup_take_lt.
Qed.

(** Two tables with the same [CName] and [Region] columns select the same
    labels. *)
Lemma select_from_same_text k name t t' :
  Forall2 (λ r r', CName r' = CName r ∧ Region r' = Region r) t t' →
  (select_from k name t').*1 = (select_from k name t).*1.
Proof.
  intros H. revert k. induction H as [|r r' t t' [Hn Hr] _ IH]; intros k.
  - done.
  - rewrite !select_from_cons, !fmap_app, IH. f_equal.
    unfold core_of. rewrite Hn, Hr. by case_decide.
Qed.

Lemma length_select_core_same_text name t t' :
  Forall2 (λ r r', CName r' = CName r ∧ Region r' = Region r) t t' →
  length (select_core name t') = length (select_core name t).
Proof.
  intros H. rewrite <-!(length_fmap fst). f_equal.
  by apply (select_from_same_text 0).
Qed.



(** X2.  The multi-core pass never reads [R]: two tables with the same
    [CName] and [Region] columns come out with the same [Region] column,
    whatever their radii. *)
Theorem X2_lettering_ignores_R t t' :
  Forall2 (λ r r', CName r' = CName r ∧ Region r' = Region r) t t' →
  Region <$> fix_mult_core t' = Region <$> fix_mult_core t.
Proof.
  intros Hsame. apply list_eq. intros j.
  rewrite !list_lookup_fmap, !fix_mult_core_lookup.
  destruct (t !! j) as [r|] eqn:Hr.
  - destruct (Forall2_lookup_l _ _ _ _ _ Hsame Hr) as (r' & Hr' & Hn & Hreg).
    rewrite Hr'. simpl. f_equal.
    unfold lettered_row, core_row, rank, core_of.
    rewrite Hn, Hreg.
    rewrite (length_select_core_same_text _ _ _ Hsame).
    rewrite (length_select_core_same_text _ _ _ (Forall2_take _ _ _ j Hsame)).
    by case_decide.
  - apply Forall2_length in Hsame.
    apply lookup_ge_None in Hr. rewrite (proj2 (lookup_ge_None t' j)) by lia.
    done.
Qed.

Lemma X2_lettering_ignores_R_witness :
  Region <$> fix_mult_core [mkRow "G" "core" 1; mkRow "G" "core" 5]
  = Region <$> fix_mult_core [mkRow "G" "core" 5; mkRow "G" "core" 1].
Proof.
  apply (X2_lettering_ignores_R
           [mkRow "G" "core" 5; mkRow "G" "core" 1]
           [mkRow "G" "core" 1; mkRow "G" "core" 5]).
  repeat constructor.
Defined.

Lemma fix_mult_core_agree name t :
  ¬ 1 < length (select_core name t) →
  Forall2 (agree_on name) t (fix_mult_core t).
Proof.
  intros Hfew. apply Forall2_same_length_lookup_2.
  - by rewrite fix_mult_core_imap, length_imap.
  - intros j r r' Hr. rewrite fix_mult_core_lookup, Hr. simpl. intros [= <-].
    unfold lettered_row. split; [apply core_row_CName|].
    intros Hn. unfold core_row. rewrite decide_False; [done|].
    rewrite Hn. by intros [_ ?].
Qed.

(** The core rows a galaxy has after the pass: none when it had two or
    more, its own otherwise. *)
Lemma select_core_after name t :
  select_core name (fix_mult_core t)
  = if decide (1 < length (select_core name t)) then []
    else select_core name t.
Proof.
  destruct (decide (1 < length (select_core name t))) as [Hmany|Hfew].
  - destruct (select_core name (fix_mult_core t)) as [|[j r'] l] eqn:Hsel;
      [done|]. exfalso.
    assert ((j, r') ∈ select_core name (fix_mult_core t)) as Hin
      by (rewrite Hsel; apply list_elem_of_here).
    apply elem_of_select_core in Hin as [Hj [Hn Hreg]].
    rewrite fix_mult_core_lookup in Hj.
    destruct (t !! j) as [r|]; [|done]. simpl in Hj. injection Hj as <-.
    unfold lettered_row in *. rewrite core_row_CName in Hn. subst name.
    unfold core_row in Hreg.
    destruct (decide (core_of (CName r) r ∧ _)) as [_|Hno].
    + by apply core_letter_ne_core in Hreg.
    + apply Hno. by split.
  - by apply select_core_agree, fix_mult_core_agree.
Qed.

(** X3.  After the multi-core pass no galaxy has two rows whose [Region] is
    "core": a galaxy that had two or more has none left, a galaxy that had
    at most one keeps what it had. *)
Theorem X3_at_most_one_core_left name t :
  length (select_core name (fix_mult_core t)) ≤ 1
  ∧ length (select_core name (fix_mult_core t))
    = if decide (1 < length (select_core name t)) then 0
      else length (select_core name t).
Proof.
  rewrite select_core_after.
  destruct (decide (1 < length (select_core name t))); simpl; split; lia.
Qed.

(** X4.  The multi-core pass is idempotent: a second run changes nothing,
    since the first leaves no galaxy with two "core" rows. *)
Theorem X4_fix_mult_core_idempotent t :
  fix_mult_core (fix_mult_core t) = fix_mult_core t.
Proof.
  apply list_eq. intros j. rewrite (fix_mult_core_lookup (fix_mult_core t)).
  destruct (fix_mult_core t !! j) as [r|]; [|done]. simpl. f_equal.
  unfold lettered_row, core_row. rewrite decide_False; [done|].
  intros [_ Hmany]. rewrite select_core_after in Hmany.
  destruct (decide (1 < length (select_core (CName r) t))); simpl in *; lia.
Qed.

Lemma core_letter_inj k k' :
  k < 191 → k' < 191 → core_letter k = core_letter k' → k = k'.
Proof.
  intros Hk Hk'. unfold core_letter, chr_A_plus.
  rewrite !append_cons, !append_nil_l. intros [= Heq].
  apply (f_equal nat_of_ascii) in Heq.
  rewrite !nat_ascii_embedding in Heq by lia. lia.
Qed.

(** X5.  In a galaxy of at most 26 core rows no letter is used twice: two
    different core rows of the galaxy come out with different [Region]s. *)
Theorem X5_letters_differ data i j ri rj :
  data !! i = Some ri → data !! j = Some rj → i ≠ j →
  CName ri = CName rj → Region ri = "core" → Region rj = "core" →
  length (select_core (CName ri) data) ≤ 26 →
  ∃ ri' rj', fix_mult_core data !! i = Some ri'
    ∧ fix_mult_core data !! j = Some rj'
    ∧ Region ri' ≠ Region rj'.
Proof.
  intros Hi Hj Hij Hn Hri Hrj Hcount.
  assert (core_of (CName ri) ri) as Hci by done.
  assert (core_of (CName ri) rj) as Hcj by done.
  pose proof (rank_lt _ _ _ _ Hi Hci) as Hlti.
  pose proof (rank_lt _ _ _ _ Hj Hcj) as Hltj.
  assert (rank (CName ri) data i ≠ rank (CName ri) data j) as Hranks.
  { destruct (decide (i < j)) as [Hlt|Hge].
    - pose proof (rank_mono (CName ri) data i j ri Hlt Hi Hci). lia.
    - assert (j < i) as Hlt by lia.
      pose proof (rank_mono (CName ri) data j i rj Hlt Hj Hcj). lia. }
  assert (1 < length (select_core (CName ri) data)) as Hmany by lia.
  eexists _, _. rewrite !fix_mult_core_lookup, Hi, Hj. simpl.
  split; [done|]. split; [done|].
  unfold lettered_row, core_row.
  rewrite (decide_True (P := core_of (CName ri) ri ∧ _)) by done.
  rewrite (decide_True (P := core_of (CName rj) rj ∧ _))
    by (split; [done | by rewrite <-Hn]).
  cbn [Region set_Region]. rewrite <-Hn.
  intros Heq. apply core_letter_inj in Heq; [done|lia..].
Qed.

Lemma X5_letters_differ_witness :
  ∃ ri' rj',
    fix_mult_core [mkRow "G" "core" 5; mkRow "G" "core" 5] !! 0 = Some ri'
    ∧ fix_mult_core [mkRow "G" "core" 5; mkRow "G" "core" 5] !! 1 = Some rj'
    ∧ Region ri' ≠ Region rj'.
Proof.
  apply (X5_letters_differ [mkRow "G" "core" 5; mkRow "G" "core" 5] 0 1
           (mkRow "G" "core" 5) (mkRow "G" "core" 5));
    try reflexivity; [lia | vm_compute; lia].
Defined.




(** X7.  The region pass and the identifier pass commute: they write
    different columns and each reads only its own. *)
Theorem X7_region_and_cname_passes_commute t :
  standardize_CNames (standardize_region_names t)
  = standardize_region_names (standardize_CNames t).
Proof.
  rewrite !standardize_CNames_fmap, !standardize_region_names_fmap.
  rewrite <-!list_fmap_compose. by apply list_fmap_ext.
Qed.

Lemma region_branch_twice raw :
  region_branch (region_branch raw) ≠ "other"
  ∧ region_branch (region_branch (region_branch raw))
    = region_branch (region_branch raw).
Proof.
  pose proof (region_branch_canonical raw) as Hin.
  unfold canonical_labels in Hin.
  rewrite !elem_of_cons, elem_of_nil in Hin.
  destruct Hin as [->|[->|[->|[->|[->|[->|[]]]]]]]; by split.
Qed.

(** X8.  The region pass settles after two runs: a second run leaves no
    "other" behind (it turns "other" into "outsk") and a third run changes
    nothing. *)
Theorem X8_region_pass_settles t :
  Forall (λ r, Region r ≠ "other")
    (standardize_region_names (standardize_region_names t))
  ∧ standardize_region_names
      (standardize_region_names (standardize_region_names t))
    = standardize_region_names (standardize_region_names t).
Proof.
  rewrite !standardize_region_names_fmap, <-!list_fmap_compose. split.
  - rewrite Forall_fmap. apply Forall_forall. intros r _. simpl.
    apply (proj1 (region_branch_twice (Region r))).
  - apply list_fmap_ext. intros _ r _. simpl. unfold relabel_region.
    cbn [Region CName R set_Region].
    by rewrite (proj2 (region_branch_twice (Region r))).
Qed.



Lemma core_row_yes name t j r :
  core_of name r → 1 < length (select_core name t) →
  core_row name t j r = set_Region (core_letter (rank name t j)) r.
Proof. intros Hc Hm. unfold core_row. by rewrite decide_True. Qed.

Lemma core_row_no name t j r :
  ¬ (core_of name r ∧ 1 < length (select_core name t)) →
  core_row name t j r = r.
Proof. intros Hno. unfold core_row. by rewrite decide_False. Qed.

(** Cleaning the names keeps the selection of a galaxy whose cleaned name
    no other name of the table shares. *)
Lemma select_from_cleaned k name t :
  Forall (λ r, strip_reg (CName r) = strip_reg name → CName r = name) t →
  (select_from k (strip_reg name) (relabel_cname <$> t)).*1
  = (select_from k name t).*1.
Proof.
  intros H. revert k. induction H as [|r t Hr _ IH]; intros k; [done|].
  rewrite fmap_cons, !select_from_cons, !fmap_app, IH. f_equal.
  unfold core_of, relabel_cname. cbn [CName Region set_CName].
  destruct (decide (CName r = name ∧ Region r = "core")) as [[<- Hreg]|Hno].
  - by rewrite decide_True.
  - rewrite decide_False; [done|]. intros [Hn Hreg]. apply Hno. auto.
Qed.

Lemma length_select_core_cleaned name t :
  Forall (λ r, strip_reg (CName r) = strip_reg name → CName r = name) t →
  length (select_core (strip_reg name) (relabel_cname <$> t))
  = length (select_core name t).
Proof.
  intros H. rewrite <-!(length_fmap fst). f_equal.
  by apply (select_from_cleaned 0).
Qed.

(** X10.  The multi-core pass groups the rows by the [CName] it finds.  On
    a table in which no two different names become one when a trailing
    "reg" is removed, it commutes with the identifier pass.  Without that
    condition it does not: rows named "A1reg" and "A1" are two galaxies
    for the pass when it runs first, as in [fix_data], and one when it
    runs second. *)
Theorem X10_multi_core_and_cname_passes t :
  (Forall (λ r, Forall (λ r', strip_reg (CName r') = strip_reg (CName r) →
                              CName r' = CName r) t) t →
   fix_mult_core (standardize_CNames t) = standardize_CNames (fix_mult_core t))
  ∧ fix_mult_core
      (standardize_CNames [mkRow "A1reg" "core" 1; mkRow "A1" "core" 2])
    ≠ standardize_CNames
        (fix_mult_core [mkRow "A1reg" "core" 1; mkRow "A1" "core" 2]).
Proof.
  split; [|by vm_compute].
  intros Hsep. apply list_eq. intros j.
  rewrite fix_mult_core_lookup, !cname_lookup, fix_mult_core_lookup.
  rewrite standardize_CNames_fmap.
  destruct (t !! j) as [r|] eqn:Hr; [|done]. simpl. f_equal.
  pose proof (Forall_lookup_1 _ _ _ _ Hsep Hr) as Hr'. simpl in Hr'.
  pose proof (length_select_core_cleaned _ _ Hr') as Hcount.
  assert (rank (strip_reg (CName r)) (relabel_cname <$> t) j
          = rank (CName r) t j) as Hrank.
  { unfold rank. rewrite <-fmap_take. apply length_select_core_cleaned.
    by apply Forall_take. }
  unfold lettered_row.
  change (CName (relabel_cname r)) with (strip_reg (CName r)).
  destruct (decide (Region r = "core"
                    ∧ 1 < length (select_core (CName r) t))) as [[Hreg Hm]|Hno].
  - rewrite !core_row_yes; [|done|done| |].
    + by rewrite Hrank.
    + done.
    + by rewrite Hcount.
  - rewrite !core_row_no; [done| |].
    + intros [[_ Hreg] Hm]. by apply Hno.
    + intros [[_ Hreg] Hm]. apply Hno. split; [done|]. by rewrite <-Hcount.
Qed.

Lemma X10_multi_core_and_cname_passes_witness :
  fix_mult_core
    (standardize_CNames [mkRow "A1reg" "core" 1; mkRow "A1reg" "core" 2;
                         mkRow "B" "core" 3])
  = standardize_CNames
      (fix_mult_core [mkRow "A1reg" "core" 1; mkRow "A1reg" "core" 2;
                      mkRow "B" "core" 3]).
Proof.
  apply (proj1 (X10_multi_core_and_cname_passes
                  [mkRow "A1reg" "core" 1; mkRow "A1reg" "core" 2;
                   mkRow "B" "core" 3])).
  repeat (constructor; [repeat (constructor; [vm_compute; congruence|]);
                        constructor|]).
  constructor.
Defined.

(** While the galaxy loop runs, the rows of a galaxy not yet reached are
    as they were. *)
Lemma foldl_core_iter_agree names name t :
  NoDup names → name ∉ names →
  Forall2 (agree_on name) t (foldl core_iter t names).
Proof.
  intros Hnd Hname. apply Forall2_lookup. intros i.
  rewrite (foldl_core_iter_lookup _ _ _ Hnd).
  destruct (t !! i) as [r|]; constructor.
  split; [apply rows_after_CName|].
  intros Hr. unfold rows_after. rewrite decide_False; congruence.
Qed.

Lemma insert_by_R_head x l :
  ascending_R (x :: l) = true → insert_by_R x l = x :: l.
Proof.
  destruct l as [|y l]; [done|]. cbn [ascending_R insert_by_R].
  intros [Hle _]%andb_true_iff. by rewrite Hle.
Qed.

Lemma ascending_R_tail x l : ascending_R (x :: l) = true → ascending_R l = true.
Proof.
  destruct l as [|y l]; [done|]. cbn [ascending_R].
  by intros [_ ?]%andb_true_iff.
Qed.

(** Sorting a selection that stands in ascending order gives it back. *)
Lemma sort_values_ascending l : ascending_R l = true → sort_values l = l.
Proof.
  unfold sort_values. induction l as [|x l IH]; [done|]. intros Hasc.
  cbn [foldr]. rewrite IH by by eapply ascending_R_tail.
  by apply insert_by_R_head.
Qed.

(** X11.  On a table where the core rows of every galaxy already stand in
    ascending order of [R], the pass letters the rows as documented: the
    dropped sort would have changed nothing. *)
Theorem X11_documented_when_ascending t :
  (∀ name, ascending_R (select_core name t) = true) →
  fix_mult_core t = disambiguate_cores t.
Proof.
  intros Hasc. unfold fix_mult_core, disambiguate_cores. cbv zeta.
  pose proof (NoDup_unique (CName <$> t)) as Hnd.
  induction (unique (CName <$> t)) as [|name names IH] using rev_ind;
    [done|].
  apply NoDup_app in Hnd as (Hnd & Hfresh & _).
  assert (name ∉ names) as Hname.
  { intros Hin. apply (Hfresh _ Hin). apply list_elem_of_here. }
  rewrite !foldl_snoc, <-(IH Hnd).
  pose proof (select_core_agree _ _ _
                (foldl_core_iter_agree _ _ t Hnd Hname)) as Hsel.
  set (t' := foldl core_iter t names) in *.
  unfold core_iter, core_iter_sorted. cbv zeta.
  by rewrite Hsel, sort_values_ascending.
Qed.

Lemma X11_documented_when_ascending_witness :
  fix_mult_core [mkRow "G" "core" 1; mkRow "H" "core" 7; mkRow "G" "core" 3]
  = disambiguate_cores
      [mkRow "G" "core" 1; mkRow "H" "core" 7; mkRow "G" "core" 3].
Proof.
  apply X11_documented_when_ascending. intros name. unfold select_core.
  cbn [imap]. rewrite !filter_cons, filter_nil. cbn [snd CName Region].
  repeat case_decide; simpl in *;
    first [reflexivity | exfalso; intuition congruence].
Defined.

(** X12.  What the pass prints: the warning once for every galaxy that
    has more than 26 core rows in the table it is given, and nothing
    else; the frame it returns is lettered all the same. *)
Theorem X12_one_warning_per_large_galaxy t :
  fix_mult_core_out t
  = (fix_mult_core t,
     replicate
       (length (filter (λ name, 26 < length (select_core name t))
                       (unique (CName <$> t))))
       warning).
Proof.
  unfold fix_mult_core_out, fix_mult_core. cbv zeta.
  pose proof (NoDup_unique (CName <$> t)) as Hnd.
  induction (unique (CName <$> t)) as [|name names IH] using rev_ind;
    [done|].
  apply NoDup_app in Hnd as (Hnd & Hfresh & _).
  assert (name ∉ names) as Hname.
  { intros Hin. apply (Hfresh _ Hin). apply list_elem_of_here. }
  rewrite !foldl_snoc, (IH Hnd).
  pose proof (select_core_agree _ _ _
                (foldl_core_iter_agree _ _ t Hnd Hname)) as Hsel.
  set (t' := foldl core_iter t names) in *.
  unfold core_iter_out, core_iter. cbv zeta. cbn [fst snd].
  rewrite Hsel, filter_app, length_app, filter_cons, filter_nil.
  destruct (decide (1 < length (select_core name t))) as [Hmany|Hfew].
  - destruct (decide (26 < length (select_core name t))).
    + simpl. by rewrite Nat.add_1_r, replicate_S_end.
    + simpl. by rewrite Nat.add_0_r.
  - rewrite decide_False by lia. simpl. by rewrite Nat.add_0_r.
Qed.
End MorePasses.

(** * Further properties of the pipeline on loaded frames *)

Section MoreFrames.
Implicit Types (data : Frame.frame) (cells : list Frame.cell).

Lemma insert_middle {A} (pre l : list A) (x y : A) :
  <[length pre := y]> (pre ++ x :: l) = pre ++ y :: l.
Proof.
  replace (length pre) with (length pre + 0) by lia.
  by rewrite insert_app_r.
Qed.

Lemma bind_Ok {A B} (a : A) (k : A → Frame.result B) :
  Frame.Ok a ≫= k = k a.
Proof. reflexivity. Qed.

Lemma bind_Raise {A B} (e : Frame.exn) (k : A → Frame.result B) :
  Frame.Raise e ≫= k = Frame.Raise e.
Proof. reflexivity. Qed.

(** A loop over the cells of one text column whose body rewrites a [str]
    and raises on [NaN] runs to its end exactly when no cell is [NaN]. *)
Lemma for_each_cells (body : Frame.frame → nat → Frame.result Frame.frame)
    (mk : list Frame.cell → Frame.frame) (f : string → string) :
  (∀ pre c l,
     body (mk (pre ++ c :: l)) (length pre)
     = match c with
       | Some s => Frame.Ok (mk (pre ++ Some (f s) :: l))
       | None => Frame.Raise Frame.TypeError
       end) →
  ∀ l pre,
    Frame.for_each body (mk (pre ++ l)) (seq (length pre) (length l))
    = if decide (Forall is_Some l)
      then Frame.Ok (mk (pre ++ ((λ c : Frame.cell, f <$> c) <$> l)))
      else Frame.Raise Frame.TypeError.
Proof.
  intros Hbody l. induction l as [|c l IH]; intros pre.
  - cbn [length seq Frame.for_each]. by rewrite decide_True by constructor.
  - cbn [length seq Frame.for_each]. rewrite Hbody.
    destruct c as [s|]; [rewrite bind_Ok | rewrite bind_Raise].
    + rewrite (cons_middle (Some (f s))), app_assoc.
      replace (S (length pre)) with (length (pre ++ [Some (f s)]))
        by (rewrite length_app; simpl; lia).
      rewrite IH, <-app_assoc. simpl.
      destruct (decide (Forall is_Some l)) as [Hall|Hnot].
      * rewrite decide_True; [done|]. by constructor.
      * rewrite decide_False; [done|]. by intros [_ ?]%Forall_cons.
    + rewrite decide_False; [done|].
      intros [Hc _]%Forall_cons. by destruct Hc.
Qed.

Lemma region_pass_cells data cells :
  Frame.col_Region data = Some cells →
  length cells = Frame.shape0 data →
  Frame.standardize_region_names data
  = if decide (Forall is_Some cells)
    then Frame.Ok (Frame.mkFrame (Frame.shape0 data) (Frame.col_CName data)
                     (Some ((λ c : Frame.cell, region_branch <$> c) <$> cells))
                     (Frame.col_R data))
    else Frame.Raise Frame.TypeError.
Proof.
  destruct data as [n cn rg cr]. simpl. intros -> <-.
  unfold Frame.standardize_region_names. cbv zeta. simpl Frame.shape0.
  refine (for_each_cells Frame.region_iter
            (λ cs, Frame.mkFrame (length cells) cn (Some cs) cr)
            region_branch _ cells []).
  intros pre c l. unfold Frame.region_iter, Frame.loc_get. simpl.
  rewrite list_lookup_middle by done. simpl.
  destruct c as [s|]; [|done].
  unfold Frame.loc_set_Region. simpl. by rewrite insert_middle.
Qed.


(** The body of the galaxy loop cannot fail on a frame that has its three
    columns; it rewrites cells of [Region] only. *)
Lemma core_iter_total name n cn rg cr :
  ∃ rg', Frame.core_iter (Frame.mkFrame n (Some cn) (Some rg) (Some cr)) name
         = Frame.Ok (Frame.mkFrame n (Some cn) (Some rg') (Some cr))
    ∧ length rg' = length rg.
Proof.
  unfold Frame.core_iter. simpl.
  set (temp_df := Frame.select_core name cn rg).
  assert (∀ l rg0, ∃ rg1,
            foldl (Frame.relabel_iter temp_df)
              (Frame.mkFrame n (Some cn) (Some rg0) (Some cr)) l
            = Frame.mkFrame n (Some cn) (Some rg1) (Some cr)
            ∧ length rg1 = length rg0) as Hloop.
  { induction l as [|i l IHl]; intros rg0; [by exists rg0|].
    cbn [foldl]. unfold Frame.relabel_iter at 2.
    destruct (temp_df !! i) as [label|]; [|apply IHl].
    unfold Frame.loc_set_Region. simpl.
    destruct (IHl (<[label:=Some (core_letter i)]> rg0)) as (rg1 & -> & Hlen).
    exists rg1. split; [done|]. by rewrite Hlen, length_insert. }
  destruct (decide (1 < length temp_df)).
  - destruct (Hloop (seq 0 (length temp_df)) rg) as (rg1 & Hrg1 & Hlen1).
    exists rg1. by rewrite Hrg1.
  - by exists rg.
Qed.

Lemma galaxy_loop_total names n cn rg cr :
  ∃ rg', Frame.for_each Frame.core_iter
           (Frame.mkFrame n (Some cn) (Some rg) (Some cr)) names
         = Frame.Ok (Frame.mkFrame n (Some cn) (Some rg') (Some cr))
    ∧ length rg' = length rg.
Proof.
  revert rg. induction names as [|name names IH]; intros rg.
  - by exists rg.
  - cbn [Frame.for_each].
    destruct (core_iter_total name n cn rg cr) as (rg1 & -> & Hlen1).
    rewrite bind_Ok.
    destruct (IH rg1) as (rg' & -> & Hlen). exists rg'. split; [done|lia].
Qed.

Section Loaded.
Context {source : Type}.
Variable read_csv : source → Frame.result Frame.frame.

(** X13.  On a frame whose [Region] column is there, the region pass
    succeeds exactly when no cell of the column is [NaN]: it then rewrites
    every cell by the rule chain and touches nothing else; a [NaN] cell
    makes it raise [TypeError], and with it the whole pipeline. *)
Theorem X13_region_pass_and_NaN (csv : source) data cells :
  Frame.col_Region data = Some cells →
  length cells = Frame.shape0 data →
  Frame.standardize_region_names data
  = (if decide (Forall is_Some cells)
     then Frame.Ok (Frame.mkFrame (Frame.shape0 data) (Frame.col_CName data)
                      (Some ((λ c : Frame.cell, region_branch <$> c) <$> cells))
                      (Frame.col_R data))
     else Frame.Raise Frame.TypeError)
  ∧ (read_csv csv = Frame.Ok data → ¬ Forall is_Some cells →
     Frame.fix_data read_csv csv = Frame.Raise Frame.TypeError).
Proof.
  intros Hcol Hlen. pose proof (region_pass_cells _ _ Hcol Hlen) as Hpass.
  split; [done|]. intros Hload Hnan. unfold Frame.fix_data.
  rewrite Hload, bind_Ok, Hpass. by rewrite decide_False.
Qed.


(** X15.  A frame without rows needs the column [CName] only: no pass
    reads a cell, [Region] and [R] may be missing, and the result is the
    empty table keyed by [CName]. *)
Theorem X15_empty_frame (csv : source) data :
  read_csv csv = Frame.Ok data →
  Frame.shape0 data = 0 →
  Frame.col_CName data = Some [] →
  Frame.fix_data read_csv csv
  = Frame.Ok (Frame.mkIndexed [] (Frame.col_Region data) (Frame.col_R data)).
Proof.
  intros Hload Hrows Hcol. unfold Frame.fix_data. rewrite Hload, bind_Ok.
  unfold Frame.standardize_region_names, Frame.fix_mult_core,
    Frame.standardize_CNames, Frame.set_index_CName. cbv zeta.
  rewrite Hrows. cbn [seq Frame.for_each]. rewrite bind_Ok, Hcol, bind_Ok.
  cbn [unique Frame.for_each]. rewrite bind_Ok.
  rewrite Hrows. cbn [seq Frame.for_each]. by rewrite bind_Ok, Hcol.
Qed.
End Loaded.

(** X16.  The multi-core pass cannot fail on a frame that has its three
    columns, [NaN] cells or not: it returns the frame with the same
    [CName] and [R] columns and a [Region] column of the same length. *)
Theorem X16_multi_core_pass_total data cnames regions radii :
  Frame.col_CName data = Some cnames →
  Frame.col_Region data = Some regions →
  Frame.col_R data = Some radii →
  ∃ regions',
    Frame.fix_mult_core data
    = Frame.Ok (Frame.mkFrame (Frame.shape0 data) (Some cnames)
                  (Some regions') (Some radii))
    ∧ length regions' = length regions.
Proof.
  destruct data as [n cn rg cr]. simpl. intros -> -> ->.
  unfold Frame.fix_mult_core. cbv zeta. cbn [Frame.col_CName].
  rewrite bind_Ok. apply galaxy_loop_total.
Qed.

Lemma X13_region_pass_and_NaN_witness :
  Frame.fix_data
    (λ _ : unit,
       Frame.Ok (Frame.mkFrame 2 (Some [Some "A"; Some "B"])
                   (Some [Some "co"; None]) (Some [1%Q; 2%Q]))) ()
  = Frame.Raise Frame.TypeError.
Proof.
  refine (proj2 (X13_region_pass_and_NaN
                   (λ _ : unit,
                      Frame.Ok (Frame.mkFrame 2 (Some [Some "A"; Some "B"])
                                  (Some [Some "co"; None]) (Some [1%Q; 2%Q])))
                   ()
                   (Frame.mkFrame 2 (Some [Some "A"; Some "B"])
                      (Some [Some "co"; None]) (Some [1%Q; 2%Q]))
                   [Some "co"; None] eq_refl eq_refl) eq_refl _).
  intros H. apply Forall_cons in H as [_ H].
  apply Forall_cons in H as [[s Hs] _]. discriminate Hs.
Defined.


Lemma X15_empty_frame_witness :
  Frame.fix_data (λ _ : unit, Frame.Ok (Frame.mkFrame 0 (Some []) None None))
    ()
  = Frame.Ok (Frame.mkIndexed [] None None).
Proof.
  apply (X15_empty_frame
           (λ _ : unit, Frame.Ok (Frame.mkFrame 0 (Some []) None None)) ()
           (Frame.mkFrame 0 (Some []) None None));
    reflexivity.
Defined.

Lemma X16_multi_core_pass_total_witness :
  ∃ regions',
    Frame.fix_mult_core
      (Frame.mkFrame 3 (Some [Some "G"; None; Some "G"])
         (Some [Some "core"; Some "core"; Some "core"])
         (Some [5%Q; 1%Q; 3%Q]))
    = Frame.Ok (Frame.mkFrame 3 (Some [Some "G"; None; Some "G"])
                  (Some regions') (Some [5%Q; 1%Q; 3%Q]))
    ∧ length regions' = 3.
Proof.
  exact (X16_multi_core_pass_total
           (Frame.mkFrame 3 (Some [Some "G"; None; Some "G"])
              (Some [Some "core"; Some "core"; Some "core"])
              (Some [5%Q; 1%Q; 3%Q]))
           [Some "G"; None; Some "G"]
           [Some "core"; Some "core"; Some "core"] [5%Q; 1%Q; 3%Q]
           eq_refl eq_refl eq_refl).
Defined.
End MoreFrames.
